(** * WALLY-S navigation and motion control: a shallow embedding

    The C sources of the WALLY-S robot (pid.c, gps.c, magnetometer.c,
    bluetooth.c and the integration loop of WALLY_S.c) are transcribed
    as Rocq functions, and the properties of the navigation core are
    stated and proved about these functions.

    Conventions of the embedding.

    - The arithmetic on C [double]s is carried out on real numbers of
      [R]: every statement below is about the arithmetic the source
      text writes, carried out exactly.  Rounding, overflow and NaN are
      outside this model.  The statements are chosen so that rounding
      does not decide them: they are made on the documented domain of
      each function (headings between 0 and 360 degrees), and a bound
      that a re-normalisation [x + 360] or [x - 360] can reach by
      rounding is stated closed.  Where a property speaks of the bits
      of a [double], the datum is a [spec_float] of the standard
      library, with its signed zeros, read through [C.double_value].
    - [uint32_t] and [int16_t] are integers of [Z]; the only wrap-around
      the sources rely on, the unsigned subtraction of two microsecond
      time stamps, is written out with [Z.modulo].
    - The file-scope [static] variables of each C module are the fields
      of a record that the functions take and return.
    - The hardware clock [time_us_32()] is an argument of the functions
      that read it.
    - Pointers are never null: every caller in the repository passes the
      address of an existing object. *)

From Stdlib Require Import Reals Lra Lia ZArith QArith Qreals Bool List.
From Stdlib Require Import Ascii String.
From Stdlib Require SpecFloat.
Import ListNotations.

Local Open Scope R_scope.

(* ================================================================== *)
(** * Part I.  The embedding                                           *)
(* ================================================================== *)

(** ** config.h *)

Module Config.

Definition KP_RPM : R := 3.
Definition KI_RPM : R := 2 / 10.
Definition KD_RPM : R := 1 / 10.

Definition KP_DIR : R := 2.
Definition KI_DIR : R := 1 / 10.
Definition KD_DIR : R := 2 / 10.

Definition LOOP_INTERVAL_MS : Z := 50.

Definition BASE_SPEED_A : Z := 180.
Definition BASE_SPEED_B : Z := 190.
Definition MIN_SPEED : Z := 30.
Definition MAX_SPEED : Z := 255.

End Config.

(** ** C arithmetic used by several modules *)

Module C.

(** Value of a [uint32_t] expression: reduction modulo 2^32. *)
Definition uint32 (z : Z) : Z := (z mod 2 ^ 32)%Z.

(** The values of a [uint32_t] object. *)
Definition is_uint32 (z : Z) : Prop := (0 <= z < 2 ^ 32)%Z.

(** [a - b] on two [uint32_t] operands. *)
Definition uint32_sub (a b : Z) : Z := uint32 (a - b).



(** The cast [(int) d] of a double: truncation toward zero. *)
Definition int_of_double (d : R) : Z :=
  if Rle_dec 0 d then Int_part d else (- Int_part (- d))%Z.

(** [atan2] of <math.h>, by the quadrant of [(x, y)]; the operands the
    sources pass are never negative zeros. *)
Definition atan2 (y x : R) : R :=
  if Rlt_dec 0 x then atan (y / x)
  else if Rlt_dec x 0 then
    if Rle_dec 0 y then atan (y / x) + PI else atan (y / x) - PI
  else if Rlt_dec 0 y then PI / 2
  else if Rlt_dec y 0 then - (PI / 2)
  else 0.

End C.

(** ** pid.h, pid.c *)

Module Pid.

Record pid_controller_t : Type := mk_pid {
  kp : R;
  ki : R;
  kd : R;
  setpoint : R;
  last_input : R;
  integral_sum : R;
  output_min : R;
  output_max : R;
  last_time : Z;
  initialized : bool
}.

(** An object of static storage before [pid_init]: all bytes zero. *)
Definition zeroed : pid_controller_t :=
  mk_pid 0 0 0 0 0 0 0 0 0%Z false.

Definition pid_init (now : Z) (kp ki kd output_min output_max : R)
  : pid_controller_t :=
  {| kp := kp; ki := ki; kd := kd;
     setpoint := 0;
     last_input := 0;
     integral_sum := 0;
     output_min := output_min;
     output_max := output_max;
     last_time := now;
     initialized := true |}.

Definition pid_set_setpoint (pid : pid_controller_t) (sp : R)
  : pid_controller_t :=
  if negb (initialized pid) then pid
  else {| kp := kp pid; ki := ki pid; kd := kd pid;
          setpoint := sp;
          last_input := last_input pid;
          integral_sum := integral_sum pid;
          output_min := output_min pid;
          output_max := output_max pid;
          last_time := last_time pid;
          initialized := initialized pid |}.

(** [dt] of [pid_compute]: the unsigned difference of the two time
    stamps, converted to double and divided by 1000000.0. *)
Definition elapsed_seconds (current_time last : Z) : R :=
  IZR (C.uint32_sub current_time last) / 1000000.

(** [pid_compute] returns the output and the controller it leaves
    behind.  [current_time] is the value [time_us_32()] returns. *)
Definition pid_compute (pid : pid_controller_t) (input : R)
    (current_time : Z) : R * pid_controller_t :=
  if negb (initialized pid) then (0, pid) else
  let dt := elapsed_seconds current_time (last_time pid) in
  if Rle_dec dt 0 then (0, pid) else
  let error := setpoint pid - input in
  let proportional := kp pid * error in
  let isum := integral_sum pid + error * dt in
  let integral := ki pid * isum in
  let derivative := kd pid * (input - last_input pid) / dt in
  let output := proportional + integral - derivative in
  let '(output', isum') :=
    if Rgt_dec output (output_max pid) then
      (output_max pid,
       if Req_dec_T (ki pid) 0 then isum
       else
         let integral_max :=
           (output_max pid - proportional + derivative) / ki pid in
         if Rgt_dec isum integral_max then integral_max else isum)
    else if Rlt_dec output (output_min pid) then
      (output_min pid,
       if Req_dec_T (ki pid) 0 then isum
       else
         let integral_min :=
           (output_min pid - proportional + derivative) / ki pid in
         if Rlt_dec isum integral_min then integral_min else isum)
    else (output, isum) in
  (output',
   {| kp := kp pid; ki := ki pid; kd := kd pid;
      setpoint := setpoint pid;
      last_input := input;
      integral_sum := isum';
      output_min := output_min pid;
      output_max := output_max pid;
      last_time := current_time;
      initialized := initialized pid |}).

Definition pid_reset (pid : pid_controller_t) (now : Z)
  : pid_controller_t :=
  if negb (initialized pid) then pid
  else {| kp := kp pid; ki := ki pid; kd := kd pid;
          setpoint := setpoint pid;
          last_input := 0;
          integral_sum := 0;
          output_min := output_min pid;
          output_max := output_max pid;
          last_time := now;
          initialized := initialized pid |}.

Definition pid_tune (pid : pid_controller_t) (now : Z) (kp' ki' kd' : R)
  : pid_controller_t :=
  if negb (initialized pid) then pid
  else pid_reset
         {| kp := kp'; ki := ki'; kd := kd';
            setpoint := setpoint pid;
            last_input := last_input pid;
            integral_sum := integral_sum pid;
            output_min := output_min pid;
            output_max := output_max pid;
            last_time := last_time pid;
            initialized := initialized pid |} now.

Definition pid_set_output_limits (pid : pid_controller_t)
    (omin omax : R) : pid_controller_t :=
  if negb (initialized pid) then pid
  else
    let isum :=
      if Req_dec_T (ki pid) 0 then integral_sum pid
      else
        let max_integral := omax / ki pid in
        let min_integral := omin / ki pid in
        if Rgt_dec (integral_sum pid) max_integral then max_integral
        else if Rlt_dec (integral_sum pid) min_integral then min_integral
        else integral_sum pid in
    {| kp := kp pid; ki := ki pid; kd := kd pid;
       setpoint := setpoint pid;
       last_input := last_input pid;
       integral_sum := isum;
       output_min := omin;
       output_max := omax;
       last_time := last_time pid;
       initialized := initialized pid |}.

(** The two [while] loops of [pid_heading_error].  Each takes a bound
    on the number of iterations and answers [None] when the bound is
    reached before the loop condition fails.  Over [R] every iteration
    moves the error by a full turn; on a [double] beyond 2^53 or so the
    subtraction of 360 is absorbed and the loop of the source does not
    end, so the properties of these loops are stated for the headings
    the header documents, 0 to 360 degrees, where at most one iteration
    runs. *)
Fixpoint while_above_180 (fuel : nat) (error : R) : option R :=
  if Rgt_dec error 180 then
    match fuel with
    | O => None
    | S fuel' => while_above_180 fuel' (error - 360)
    end
  else Some error.

Fixpoint while_below_minus_180 (fuel : nat) (error : R) : option R :=
  if Rlt_dec error (-180) then
    match fuel with
    | O => None
    | S fuel' => while_below_minus_180 fuel' (error + 360)
    end
  else Some error.

Definition pid_heading_error (fuel : nat) (sp input : R) : option R :=
  let error := sp - input in
  match while_above_180 fuel error with
  | None => None
  | Some error1 => while_below_minus_180 fuel error1
  end.

(** The controller [pid_test] sets up for its step response: gains
    2.0, 0.1 and 0.2, output limits -100 and 100, set point 90; the
    clock reads 0 at [pid_init]. *)
Definition step_response : pid_controller_t :=
  pid_set_setpoint (pid_init 0 2 (1 / 10) (2 / 10) (-100) 100) 90.

(** Saturation of a value into an interval, as the sentence
    "clamp raw_output to [output_min, output_max]" reads. *)
Definition clamp (x lo hi : R) : R := Rmax lo (Rmin x hi).

End Pid.

(** ** gps.h, gps.c *)

Module Gps.

Record gps_data_t : Type := mk_gps_data {
  latitude : R;
  longitude : R;
  altitude : R;
  satellites : Z;
  fix_quality : Z;
  fix_valid : bool;
  time : string
}.

Record target_data_t : Type := mk_target {
  target_latitude : R;
  target_longitude : R;
  target_set : bool
}.

(** The file-scope variables of gps.c. *)
Record gps_module : Type := mk_gps {
  initialized : bool;
  current_gps_data : gps_data_t;
  target_data : target_data_t
}.

(** Static storage before any call: [{0}] initialisers. *)
Definition power_on : gps_module :=
  {| initialized := false;
     current_gps_data := mk_gps_data 0 0 0 0%Z 0%Z false EmptyString;
     target_data := mk_target 0 0 false |}.

Definition gps_init (g : gps_module) : gps_module * bool :=
  ({| initialized := true;
      current_gps_data := current_gps_data g;
      target_data := target_data g |}, true).

(** [gps_update] drains the UART and lets [parse_gga_sentence] rewrite
    [current_gps_data] for every complete GPGGA line.  The receiver is
    an external collaborator: [received] is the list of records the
    lines of this call decode to, oldest first. *)
Definition gps_update (g : gps_module) (received : list gps_data_t)
  : gps_module * bool :=
  if negb (initialized g) then (g, false)
  else ({| initialized := initialized g;
           current_gps_data := last received (current_gps_data g);
           target_data := target_data g |}, true).

Definition gps_get_data (g : gps_module) : gps_data_t :=
  current_gps_data g.

Definition gps_set_target (g : gps_module) (lat lng : R) : gps_module :=
  {| initialized := initialized g;
     current_gps_data := current_gps_data g;
     target_data := {| target_latitude := lat;
                       target_longitude := lng;
                       target_set := true |} |}.

Definition gps_has_target (g : gps_module) : bool :=
  target_set (target_data g).

(** The term [a] of the haversine formula for a pair of coordinates. *)
Definition haversine_a (lat1 lng1 lat2 lng2 : R) : R :=
  let lat1_rad := lat1 * PI / 180 in
  let lat2_rad := lat2 * PI / 180 in
  let delta_lat := (lat2 - lat1) * PI / 180 in
  let delta_lng := (lng2 - lng1) * PI / 180 in
  sin (delta_lat / 2) * sin (delta_lat / 2) +
  cos lat1_rad * cos lat2_rad * sin (delta_lng / 2) * sin (delta_lng / 2).

(** The arithmetic of [gps_distance_to_target] after its guard, from
    the point [(lat1, lng1)] to the point [(lat2, lng2)].  Over [R] the
    term [a] never exceeds 1 and [cos (PI / 2)] is 0; on [double]s
    rounding can carry [a] above 1 for two points opposite each other
    on the sphere, where the source takes the square root of a
    negative number, and leaves a small cosine at a pole.  No property
    below is stated at such points. *)
Definition haversine (lat1 lng1 lat2 lng2 : R) : R :=
  let a := haversine_a lat1 lng1 lat2 lng2 in
  let c := 2 * C.atan2 (sqrt a) (sqrt (1 - a)) in
  6371000 * c.

Definition gps_distance_to_target (g : gps_module) : R :=
  if negb (fix_valid (current_gps_data g)) || negb (target_set (target_data g))
  then 0
  else haversine (latitude (current_gps_data g))
                 (longitude (current_gps_data g))
                 (target_latitude (target_data g))
                 (target_longitude (target_data g)).

(** [gps_bearing_to_target].  Over [R] the sum [bearing + 360] of a
    negative bearing is below 360; on [double]s it rounds to 360 for a
    bearing that is a tiny negative number, so the range of the result
    is stated closed. *)
Definition gps_bearing_to_target (g : gps_module) : R :=
  if negb (fix_valid (current_gps_data g)) || negb (target_set (target_data g))
  then 0
  else
    let lat1_rad := latitude (current_gps_data g) * PI / 180 in
    let lat2_rad := target_latitude (target_data g) * PI / 180 in
    let delta_lng :=
      (target_longitude (target_data g) - longitude (current_gps_data g))
      * PI / 180 in
    let y := sin delta_lng * cos lat2_rad in
    let x := cos lat1_rad * sin lat2_rad
             - sin lat1_rad * cos lat2_rad * cos delta_lng in
    let bearing := C.atan2 y x * 180 / PI in
    if Rlt_dec bearing 0 then bearing + 360 else bearing.

Definition gps_target_reached (g : gps_module) : bool :=
  if Rlt_dec (gps_distance_to_target g) 2 then true else false.

(** The state in which the position fix is [(lat1, lng1)], the fix is
    valid and the target [(lat2, lng2)] is set. *)
Definition fixed_at (lat1 lng1 lat2 lng2 : R) : gps_module :=
  {| initialized := true;
     current_gps_data := mk_gps_data lat1 lng1 0 4%Z 1%Z true EmptyString;
     target_data := mk_target lat2 lng2 true |}.


End Gps.

(** ** magnetometer.h, magnetometer.c *)

Module Magnetometer.

(** The file-scope variables of magnetometer.c. *)
Record mag_module : Type := mk_mag {
  initialized : bool;
  filtered_heading : R;
  declination_angle : R
}.

Definition ALPHA : R := 6 / 10.

(** Static initialisers of the module. *)
Definition power_on : mag_module :=
  {| initialized := false;
     filtered_heading := 0;
     declination_angle := 404 / 10000 |}.

(** [magnetometer_init]: [i2c_ok] tells whether the first I2C write
    answered something else than PICO_ERROR_GENERIC. *)
Definition magnetometer_init (m : mag_module) (i2c_ok : bool)
  : mag_module * bool :=
  if negb i2c_ok then (m, false)
  else ({| initialized := true;
           filtered_heading := filtered_heading m;
           declination_angle := declination_angle m |}, true).

(** The module after a successful [magnetometer_init]. *)
Definition ready : mag_module := fst (magnetometer_init power_on true).

(** [magnetometer_read_raw]: [bus] is what the I2C read delivers, the
    three assembled 16-bit values, or [None] on PICO_ERROR_GENERIC. *)
Definition magnetometer_read_raw (m : mag_module) (bus : option (Z * Z * Z))
  : option (Z * Z * Z) :=
  if negb (initialized m) then None else bus.

Definition magnetometer_calculate_heading (m : mag_module) (x y : Z) : R :=
  let heading := C.atan2 (IZR y) (IZR x) * 180 in
  let heading := heading + declination_angle m * 180 in
  if Rlt_dec heading 0 then heading + 360
  else if Rge_dec heading 360 then heading - 360
  else heading.

(** The low-pass step of [magnetometer_get_filtered_heading] on one
    heading sample.  As for the bearing of gps.c, the sum
    [filtered + 360] of the last step rounds to 360 on [double]s when
    [filtered] is a tiny negative number: the stored heading is a
    number of the closed interval from 0 to 360. *)
Definition low_pass (filtered new_heading : R) : R :=
  let difference := new_heading - filtered in
  let difference :=
    if Rgt_dec difference 180 then difference - 360
    else if Rlt_dec difference (-180) then difference + 360
    else difference in
  let filtered := filtered + ALPHA * difference in
  if Rlt_dec filtered 0 then filtered + 360
  else if Rge_dec filtered 360 then filtered - 360
  else filtered.

Definition magnetometer_get_filtered_heading (m : mag_module)
    (bus : option (Z * Z * Z)) : R * mag_module :=
  match magnetometer_read_raw m bus with
  | None => (filtered_heading m, m)
  | Some (x, y, _) =>
      let new_heading := magnetometer_calculate_heading m x y in
      let f := low_pass (filtered_heading m) new_heading in
      (f, {| initialized := initialized m;
             filtered_heading := f;
             declination_angle := declination_angle m |})
  end.

Definition magnetometer_is_initialized (m : mag_module) : bool :=
  initialized m.

Definition magnetometer_set_declination (m : mag_module) (d : R)
  : mag_module :=
  {| initialized := initialized m;
     filtered_heading := filtered_heading m;
     declination_angle := d |}.

(** Successive calls of [magnetometer_get_filtered_heading], one per
    element of [samples]; the headings returned, oldest first. *)
Fixpoint headings (m : mag_module) (samples : list (option (Z * Z * Z)))
  : list R :=
  match samples with
  | [] => []
  | s :: rest =>
      let (h, m') := magnetometer_get_filtered_heading m s in
      h :: headings m' rest
  end.

(** Length of the shorter arc between two headings of [0, 360). *)
Definition arc (a b : R) : R := Rmin (Rabs (a - b)) (360 - Rabs (a - b)).

End Magnetometer.

(** ** bluetooh.h, bluetooth.c *)

Module Bluetooth.

Local Open Scope Z_scope.

(** *** [atof] of <stdlib.h>

    The conversion follows the subject sequence of [strtod]: optional
    white space, an optional sign, then a decimal floating constant,
    a hexadecimal one, or one of INF, INFINITY, NAN in any case.  A
    text with no such prefix converts to zero.  The value is the exact
    rational the text denotes; the library function rounds it to the
    nearest [double] and answers an infinity beyond the range, which
    matters only for texts of more digits than a [double] holds. *)

Inductive atof_value : Type :=
| Finite (q : Q)
| Infinity (negative : bool)
| NaN.

Definition code (c : ascii) : Z := Z.of_N (N_of_ascii c).

Definition isspace (c : ascii) : bool :=
  (code c =? 32) || ((9 <=? code c) && (code c <=? 13)).

Definition tolower (c : ascii) : ascii :=
  if (65 <=? code c) && (code c <=? 90)
  then ascii_of_N (Z.to_N (code c + 32)) else c.

Definition digit (c : ascii) : option Z :=
  if (48 <=? code c) && (code c <=? 57) then Some (code c - 48) else None.

Definition xdigit (c : ascii) : option Z :=
  match digit c with
  | Some d => Some d
  | None =>
      let l := code (tolower c) in
      if (97 <=? l) && (l <=? 102) then Some (l - 87) else None
  end.

Fixpoint skip_spaces (s : list ascii) : list ascii :=
  match s with
  | c :: s' => if isspace c then skip_spaces s' else s
  | [] => []
  end.

(** Reads the longest run of digits of the given base at the head of
    [s]: the number read on top of [acc], how many digits were read,
    and the rest of the text. *)
Fixpoint read_digits (base : Z) (dig : ascii -> option Z)
    (s : list ascii) (acc : Z) (count : Z) : Z * Z * list ascii :=
  match s with
  | c :: s' =>
      match dig c with
      | Some d => read_digits base dig s' (base * acc + d) (count + 1)
      | None => (acc, count, s)
      end
  | [] => (acc, count, s)
  end.

Definition read_sign (s : list ascii) : bool * list ascii :=
  match s with
  | "-"%char :: s' => (true, s')
  | "+"%char :: s' => (false, s')
  | _ => (false, s)
  end.

(** Exponent part introduced by the letter [mark]; zero when the text
    does not continue with a well-formed exponent. *)
Definition read_exponent (mark : ascii) (s : list ascii) : Z :=
  match s with
  | c :: s' =>
      if Ascii.eqb (tolower c) mark then
        let (neg, s'') := read_sign s' in
        let '(e, n, _) := read_digits 10 digit s'' 0 0 in
        if n =? 0 then 0 else if neg then - e else e
      else 0
  | [] => 0
  end.

(** Mantissa [digits . digits] in base [base], then the exponent:
    [None] when the mantissa has no digit at all. *)
Definition read_float (base : Z) (dig : ascii -> option Z) (mark : ascii)
    (ebase : Q) (frac_weight : Z) (s : list ascii) : option Q :=
  let '(ip, n1, r1) := read_digits base dig s 0 0 in
  let '(m, n2, r2) :=
    match r1 with
    | "."%char :: r => read_digits base dig r ip 0
    | _ => (ip, 0, r1)
    end in
  if n1 + n2 =? 0 then None
  else
    let e := read_exponent mark r2 in
    Some (inject_Z m * Qpower ebase (e - frac_weight * n2))%Q.

Fixpoint has_prefix_nocase (p s : list ascii) : bool :=
  match p, s with
  | [], _ => true
  | a :: p', c :: s' => Ascii.eqb a (tolower c) && has_prefix_nocase p' s'
  | _ :: _, [] => false
  end.

Definition atof_unsigned (s : list ascii) : atof_value :=
  if has_prefix_nocase (list_ascii_of_string "inf") s then Infinity false
  else if has_prefix_nocase (list_ascii_of_string "nan") s then NaN
  else
    let hex :=
      match s with
      | "0"%char :: x :: s' =>
          if Ascii.eqb (tolower x) "x"%char
          then read_float 16 xdigit "p"%char 2%Q 4 s'
          else None
      | _ => None
      end in
    match hex with
    | Some q => Finite q
    | None =>
        match read_float 10 digit "e"%char 10%Q 1 s with
        | Some q => Finite q
        | None => Finite 0
        end
    end.

Definition atof (s : list ascii) : atof_value :=
  let (neg, s') := read_sign (skip_spaces s) in
  match atof_unsigned s' with
  | Finite q => Finite (if neg then - q else q)%Q
  | Infinity _ => Infinity neg
  | NaN => NaN
  end.

(** The comparison [lo <= v && v <= hi] on a converted value; it is
    false on infinities and on NaN. *)
Definition between (lo hi : R) (v : atof_value) : bool :=
  match v with
  | Finite q =>
      if Rle_dec lo (Q2R q) then if Rle_dec (Q2R q) hi then true else false
      else false
  | _ => false
  end.

(** *** [bluetooth_parse_coordinates] *)

(** Offset of the first occurrence of [c] in the text. *)
Fixpoint strchr (s : list ascii) (c : ascii) : option nat :=
  match s with
  | [] => None
  | a :: s' =>
      if Ascii.eqb a c then Some O
      else option_map S (strchr s' c)
  end.

Inductive outcome : Type :=
| Overrun
    (** [strcpy] writes past the 32 bytes of [lng_str] *)
| Refused
    (** [return false] before [*lat] and [*lng] are written *)
| Converted (lat lng : atof_value) (ok : bool)
    (** [*lat], [*lng] and the value returned *).

Definition sizeof_str : nat := 32.

Definition bluetooth_parse_coordinates (command : string) : outcome :=
  let command := list_ascii_of_string command in
  match strchr command ","%char with
  | None => Refused
  | Some lat_len =>
      if (sizeof_str <=? lat_len)%nat then Refused
      else
        let lat_str := firstn lat_len command in
        let after_comma := skipn (S lat_len) command in
        if (sizeof_str <=? List.length after_comma)%nat then Overrun
        else
          let lat := atof lat_str in
          let lng := atof after_comma in
          Converted lat lng
            (between (-90) 90 lat && between (-180) 180 lng)
  end.

(** The value the function returns, [false] when it does not return. *)
Definition returns_true (o : outcome) : bool :=
  match o with
  | Converted _ _ ok => ok
  | _ => false
  end.

(** Grammar of a decimal number in full: an optional sign, digits with
    an optional point among them (one digit at least), an optional
    exponent, and nothing else. *)
Definition all_digits (s : list ascii) : bool :=
  forallb (fun c => match digit c with Some _ => true | None => false end) s.

Definition numeric_mantissa (s : list ascii) : bool :=
  match strchr s "."%char with
  | None => negb (List.length s =? 0)%nat && all_digits s
  | Some i =>
      negb (List.length s =? 1)%nat
      && all_digits (firstn i s) && all_digits (skipn (S i) s)
  end.

Definition numeric_exponent (s : list ascii) : bool :=
  let (_, s') := read_sign s in
  negb (List.length s' =? 0)%nat && all_digits s'.

Definition numeric (s : list ascii) : bool :=
  let (_, s') := read_sign s in
  match strchr (map tolower s') "e"%char with
  | None => numeric_mantissa s'
  | Some i =>
      numeric_mantissa (firstn i s') && numeric_exponent (skipn (S i) s')
  end.

End Bluetooth.

(** ** The motor actuator *)

Module Motors.

(** motors.h and motors.c are named by WALLY_S.c but are not among the
    sources.  The spec describes the actuator as a sink of motor
    commands, each a direction and a speed per wheel, with a stop
    command that is the zero command; what this module keeps is the
    command the actuator received last. *)

(** Modelled from the spec: the direction of a wheel in a motor
    command; the loop only ever passes MOTOR_FORWARD. *)
Inductive motor_direction : Type :=
| MOTOR_FORWARD
| MOTOR_BACKWARD.

(** Modelled from the spec: a motor command, the stop command or a
    direction and a speed for each of the two wheels. *)
Inductive motor_command : Type :=
| AllStopped
| Drive (dir_a : motor_direction) (speed_a : Z)
        (dir_b : motor_direction) (speed_b : Z).

(** Modelled from the spec: [motors_stop_all()] puts the stop command
    into effect. *)
Definition motors_stop_all (in_effect : motor_command) : motor_command :=
  AllStopped.

(** Modelled from the spec: [motors_set_both_motors] puts the command
    made of its four arguments into effect. *)
Definition motors_set_both_motors (in_effect : motor_command)
    (dir_a : motor_direction) (speed_a : Z)
    (dir_b : motor_direction) (speed_b : Z) : motor_command :=
  Drive dir_a speed_a dir_b speed_b.

End Motors.

(** ** WALLY_S.c: [integration_test] *)

Module Wally.

Import Config.

(** Texts and reports handed to the Bluetooth link. *)
Inductive bt_message : Type :=
| NavigationStopped
    (** "Navegacion detenida" *)
| TargetEstablished
    (** "Objetivo establecido" *)
| InvalidFormat
    (** "Formato invalido. Usar: LAT,LNG" *)
| TargetReached
    (** "Objetivo alcanzado!" *)
| Status (heading target_heading distance : R) (gps_fix : bool)
    (** [bluetooth_send_status] *)
| NavigationInfo (current_lat current_lng target_lat target_lng
                  distance bearing : R)
    (** [bluetooth_send_navigation_info] *).

(** What one pass of the loop does to its collaborators, in order.
    The [printf] traces on the console are left out. *)
Inductive event : Type :=
| MotorsStopAll
| MotorsSetBoth (dir_a : Motors.motor_direction) (speed_a : Z)
                (dir_b : Motors.motor_direction) (speed_b : Z)
| BluetoothSend (m : bt_message)
| LedToggle.

Definition is_motor_event (e : event) : bool :=
  match e with
  | MotorsStopAll | MotorsSetBoth _ _ _ _ => true
  | _ => false
  end.

(** The variables the loop body reads and writes: the statics of the
    modules it calls, the three controllers of WALLY_S.c and the
    locals that live across iterations. *)
Record loop_state : Type := mk_loop {
  mag : Magnetometer.mag_module;
  gps : Gps.gps_module;
  motors : Motors.motor_command;
  heading_pid : Pid.pid_controller_t;
  speed_pid_a : Pid.pid_controller_t;
  speed_pid_b : Pid.pid_controller_t;
  navigation_active : bool;
  loop_counter : Z
}.

(** What the outside world feeds one iteration. *)
Record tick_input : Type := mk_input {
  mag_bus : option (Z * Z * Z);
    (** the I2C read of the magnetometer *)
  gps_received : list Gps.gps_data_t;
    (** the GPGGA sentences completed since the last pass *)
  bt_buffer : string;
    (** the line [bluetooth_read_line] stored; empty when it returns 0 *)
  clock_at_reset : Z;
    (** [time_us_32()] inside [pid_reset], when it is called *)
  clock_at_compute : Z
    (** [time_us_32()] inside [pid_compute], when it is called *)
}.

Definition with_command (s : loop_state) (gps' : Gps.gps_module)
    (motors' : Motors.motor_command) (pid' : Pid.pid_controller_t)
    (active : bool) : loop_state :=
  {| mag := mag s; gps := gps'; motors := motors';
     heading_pid := pid';
     speed_pid_a := speed_pid_a s; speed_pid_b := speed_pid_b s;
     navigation_active := active;
     loop_counter := loop_counter s |}.

(** Lines 122-144: the Bluetooth command, if a line came in.  [None]
    stands for the undefined behaviour of the overrun in
    [bluetooth_parse_coordinates]. *)
Definition process_command (s : loop_state) (i : tick_input)
  : option (loop_state * list event) :=
  let bt_bytes := Z.of_nat (String.length (bt_buffer i)) in
  if (0 <? bt_bytes)%Z then
    if String.eqb (bt_buffer i) "STOP" then
      Some (with_command s (gps s) (Motors.motors_stop_all (motors s))
              (heading_pid s) false,
            [MotorsStopAll; BluetoothSend NavigationStopped])
    else
      match Bluetooth.bluetooth_parse_coordinates (bt_buffer i) with
      | Bluetooth.Overrun => None
      | Bluetooth.Converted (Bluetooth.Finite lat) (Bluetooth.Finite lng)
          true =>
          Some (with_command s
                  (Gps.gps_set_target (gps s) (Q2R lat) (Q2R lng))
                  (motors s)
                  (Pid.pid_reset (heading_pid s) (clock_at_reset i))
                  true,
                [BluetoothSend TargetEstablished])
      | _ => Some (s, [BluetoothSend InvalidFormat])
      end
  else Some (s, []).

Definition limit_speed (speed : Z) : Z :=
  if (speed <? MIN_SPEED)%Z then MIN_SPEED
  else if (speed >? MAX_SPEED)%Z then MAX_SPEED
  else speed.

(** Lines 146-176: autonomous navigation.  [heading] and [gps_data]
    are the locals read at the top of the iteration. *)
Definition navigate (s : loop_state) (heading : R)
    (gps_data : Gps.gps_data_t) (now : Z) : loop_state * list event :=
  if navigation_active s && Gps.fix_valid gps_data
     && Gps.gps_has_target (gps s)
  then
    let target_bearing := Gps.gps_bearing_to_target (gps s) in
    if Gps.gps_target_reached (gps s) then
      (with_command s (gps s) (Motors.motors_stop_all (motors s))
         (heading_pid s) false,
       [MotorsStopAll; BluetoothSend TargetReached])
    else
      let pid1 := Pid.pid_set_setpoint (heading_pid s) target_bearing in
      let (heading_correction, pid2) := Pid.pid_compute pid1 heading now in
      let speed_a :=
        limit_speed (BASE_SPEED_A - C.int_of_double heading_correction) in
      let speed_b :=
        limit_speed (BASE_SPEED_B + C.int_of_double heading_correction) in
      (with_command s (gps s)
         (Motors.motors_set_both_motors (motors s)
            Motors.MOTOR_FORWARD speed_a Motors.MOTOR_FORWARD speed_b)
         pid2 (navigation_active s),
       [MotorsSetBoth Motors.MOTOR_FORWARD speed_a
                      Motors.MOTOR_FORWARD speed_b])
  else (s, []).

(** Lines 178-200: the report sent every twentieth pass. *)
Definition report (s : loop_state) (heading : R)
    (gps_data : Gps.gps_data_t) : loop_state * list event :=
  let counter := (loop_counter s + 1)%Z in
  if (counter >=? 20)%Z then
    let message :=
      if Gps.gps_has_target (gps s) && Gps.fix_valid gps_data then
        NavigationInfo (Gps.latitude gps_data) (Gps.longitude gps_data)
          0 0
          (Gps.gps_distance_to_target (gps s))
          (Gps.gps_bearing_to_target (gps s))
      else Status heading 0 0 (Gps.fix_valid gps_data) in
    ({| mag := mag s; gps := gps s; motors := motors s;
        heading_pid := heading_pid s;
        speed_pid_a := speed_pid_a s; speed_pid_b := speed_pid_b s;
        navigation_active := navigation_active s;
        loop_counter := 0 |},
     [LedToggle; BluetoothSend message])
  else
    ({| mag := mag s; gps := gps s; motors := motors s;
        heading_pid := heading_pid s;
        speed_pid_a := speed_pid_a s; speed_pid_b := speed_pid_b s;
        navigation_active := navigation_active s;
        loop_counter := counter |}, []).

(** Lines 117-120: the sensors are read. *)
Definition read_sensors (s : loop_state) (i : tick_input)
  : loop_state * R * Gps.gps_data_t :=
  let (heading, mag') :=
    Magnetometer.magnetometer_get_filtered_heading (mag s) (mag_bus i) in
  let gps' := fst (Gps.gps_update (gps s) (gps_received i)) in
  ({| mag := mag'; gps := gps'; motors := motors s;
      heading_pid := heading_pid s;
      speed_pid_a := speed_pid_a s; speed_pid_b := speed_pid_b s;
      navigation_active := navigation_active s;
      loop_counter := loop_counter s |},
   heading, Gps.gps_get_data gps').

(** One iteration of [while (true)]: the state it leaves and the
    events it emits, in order. *)
Definition tick (s : loop_state) (i : tick_input)
  : option (loop_state * list event) :=
  let '(s0, heading, gps_data) := read_sensors s i in
  match process_command s0 i with
  | None => None
  | Some (s1, ev1) =>
      let (s2, ev2) := navigate s1 heading gps_data (clock_at_compute i) in
      let (s3, ev3) := report s2 heading gps_data in
      Some (s3, ev1 ++ ev2 ++ ev3)
  end.

(** The input of a pass in which nothing but the Bluetooth line
    [line] arrives: the magnetometer read fails, the GPS is silent and
    the clock reads [now]. *)
Definition line_only (line : string) (now : Z) : tick_input :=
  {| mag_bus := None; gps_received := []; bt_buffer := line;
     clock_at_reset := now; clock_at_compute := now |}.

(** Lines 77-114: the state on entry of the loop, when every module
    initialises.  [t1], [t2], [t3] are the clock readings of the three
    calls of [pid_init]. *)
Definition startup (t1 t2 t3 : Z) : loop_state :=
  {| mag := fst (Magnetometer.magnetometer_init Magnetometer.power_on true);
     gps := fst (Gps.gps_init Gps.power_on);
     motors := Motors.AllStopped;
     heading_pid := Pid.pid_init t1 KP_DIR KI_DIR KD_DIR (-50) 50;
     speed_pid_a :=
       Pid.pid_set_setpoint
         (Pid.pid_init t2 KP_RPM KI_RPM KD_RPM
            (IZR MIN_SPEED) (IZR MAX_SPEED))
         (IZR BASE_SPEED_A);
     speed_pid_b :=
       Pid.pid_set_setpoint
         (Pid.pid_init t3 KP_RPM KI_RPM KD_RPM
            (IZR MIN_SPEED) (IZR MAX_SPEED))
         (IZR BASE_SPEED_B);
     navigation_active := false;
     loop_counter := 0 |}.

(** A state of the loop under way: navigation is active towards the
    target (10, 20) and both motors run forward at their base speed. *)
Definition cruising : loop_state :=
  with_command (startup 0 0 0)
    (Gps.gps_set_target (gps (startup 0 0 0)) 10 20)
    (Motors.Drive Motors.MOTOR_FORWARD BASE_SPEED_A
                  Motors.MOTOR_FORWARD BASE_SPEED_B)
    (heading_pid (startup 0 0 0))
    true.

(** A pass in which the receiver reports two satellites and no fix,
    and no Bluetooth line arrives. *)
Definition fix_lost (now : Z) : tick_input :=
  {| mag_bus := None;
     gps_received := [Gps.mk_gps_data 0 0 0 2%Z 0%Z false EmptyString];
     bt_buffer := EmptyString;
     clock_at_reset := now; clock_at_compute := now |}.

End Wally.

(** ** magnetometer.c: the bytes of [magnetometer_read_raw] *)

Module MagnetometerBus.

(** The conversion of an [int] to [int16_t]: reduction modulo 2^16
    into [-32768, 32767]. *)
Definition int16_cast (u : Z) : Z :=
  let w := (u mod 65536)%Z in
  if (w <? 32768)%Z then w else (w - 65536)%Z.

(** [(int16_t)(hi << 8 | lo)] on two bytes of the I2C buffer. *)
Definition assemble (lo hi : Z) : Z :=
  int16_cast (Z.lor (Z.shiftl hi 8) lo).

(** A value of [uint8_t]. *)
Definition is_byte (b : Z) : Prop := (0 <= b < 256)%Z.

(** [magnetometer_read_raw] (lines 54-74): [i2c] is the buffer the
    blocking read filled, X, Y and Z least significant byte first, or
    [None] when the read answered PICO_ERROR_GENERIC. *)
Definition magnetometer_read_raw (m : Magnetometer.mag_module)
    (i2c : option (list Z)) : option (Z * Z * Z) :=
  if negb (Magnetometer.initialized m) then None
  else
    match i2c with
    | Some [b0; b1; b2; b3; b4; b5] =>
        Some (assemble b0 b1, assemble b2 b3, assemble b4 b5)
    | _ => None
    end.

End MagnetometerBus.

(** ** bluetooth.c: [bluetooth_read_line] *)

Module BluetoothLine.

Local Open Scope Z_scope.

Definition is_newline (c : ascii) : bool :=
  (Bluetooth.code c =? 10) || (Bluetooth.code c =? 13).

(** [c >= ' ' && c <= '~'] *)
Definition printable (c : ascii) : bool :=
  (32 <=? Bluetooth.code c) && (Bluetooth.code c <=? 126).

(** The [while] loop of lines 60-73.  [rx] holds the characters the
    UART delivers before the 100 ms deadline, in order of arrival;
    [line] is [buffer[0 .. index - 1]].  The loop ends when the buffer
    is full, when a line end closes a non-empty line, or when the
    deadline passes with nothing more to read; it answers the line and
    the characters it has not taken from the UART. *)
Fixpoint read_loop (max_length : Z) (rx : list ascii) (line : list ascii)
  : list ascii * list ascii :=
  match rx with
  | [] => (line, [])
  | c :: rx' =>
      if Z.of_nat (List.length line) <? max_length - 1 then
        if is_newline c then
          if 0 <? Z.of_nat (List.length line) then (line, rx')
          else read_loop max_length rx' line
        else if printable c then read_loop max_length rx' (line ++ [c])
        else read_loop max_length rx' line
      else (line, rx)
  end.

(** [bluetooth_read_line]: the value returned, the line stored in the
    buffer and the characters left in the UART. *)
Definition bluetooth_read_line (initialized : bool) (max_length : Z)
    (rx : list ascii) : Z * list ascii * list ascii :=
  if negb initialized || (max_length <=? 0) then (-1, [], rx)
  else
    let (line, rest) := read_loop max_length rx [] in
    (Z.of_nat (List.length line), line, rest).

End BluetoothLine.

(** ** gps.c: decoding of the NMEA text *)

Module GpsReceiver.

Import Gps.

(** The values of an [int]. *)
Definition is_int (z : Z) : bool :=
  ((- 2 ^ 31 <=? z) && (z <? 2 ^ 31))%Z.

(** [atoi] of <stdlib.h>: optional white space, an optional sign and
    decimal digits; [None] when the number does not fit an [int], where
    the behaviour is undefined. *)
Definition atoi (s : list ascii) : option Z :=
  let (neg, s') := Bluetooth.read_sign (Bluetooth.skip_spaces s) in
  let '(n, _, _) := Bluetooth.read_digits 10 Bluetooth.digit s' 0%Z 0%Z in
  let v := if neg then (- n)%Z else n in
  if is_int v then Some v else None.

(** [convert_to_degrees] (lines 34-41).  [None] stands for a cast to
    [int] of a value that is not finite or does not fit, where the
    behaviour is undefined. *)
Definition convert_to_degrees (raw_degrees : list ascii) : option R :=
  if (List.length raw_degrees <? 4)%nat then Some 0
  else
    match Bluetooth.atof raw_degrees with
    | Bluetooth.Finite q =>
        let raw := Q2R q in
        let degrees := C.int_of_double (raw / 100) in
        if is_int degrees && is_int (degrees * 100) then
          let minutes := raw - IZR (degrees * 100) in
          Some (IZR degrees + minutes / 60)
        else None
    | _ => None
    end.

(** The tokens successive calls of [strtok(.., ",")] return on a text:
    the maximal runs of characters other than the comma.  [current] is
    the token being read. *)
Fixpoint strtok_from (s : list ascii) (current : list ascii)
  : list (list ascii) :=
  match s with
  | [] => match current with [] => [] | _ => [current] end
  | c :: s' =>
      if Ascii.eqb c ","%char then
        match current with
        | [] => strtok_from s' []
        | _ => current :: strtok_from s' []
        end
      else strtok_from s' (current ++ [c])
  end.

Definition strtok_all (s : list ascii) : list (list ascii) :=
  strtok_from s [].

Definition negate_latitude (d : gps_data_t) : gps_data_t :=
  mk_gps_data (- latitude d) (longitude d) (altitude d) (satellites d)
    (fix_quality d) (fix_valid d) (time d).

Definition negate_longitude (d : gps_data_t) : gps_data_t :=
  mk_gps_data (latitude d) (- longitude d) (altitude d) (satellites d)
    (fix_quality d) (fix_valid d) (time d).

Definition first_is (c : ascii) (token : list ascii) : bool :=
  match token with
  | a :: _ => Ascii.eqb a c
  | [] => false
  end.

(** The [switch] of [parse_gga_sentence] on one token.  [None] stands
    for undefined behaviour in a conversion, and for an altitude that
    is not a finite number. *)
Definition parse_field (d : gps_data_t) (field : nat) (token : list ascii)
  : option gps_data_t :=
  match field with
  | 1%nat =>
      if (6 <=? List.length token)%nat then
        Some (mk_gps_data (latitude d) (longitude d) (altitude d)
                (satellites d) (fix_quality d) (fix_valid d)
                (string_of_list_ascii (firstn 6 token)))
      else Some d
  | 2%nat =>
      if (0 <? List.length token)%nat then
        match convert_to_degrees token with
        | Some v =>
            Some (mk_gps_data v (longitude d) (altitude d) (satellites d)
                    (fix_quality d) (fix_valid d) (time d))
        | None => None
        end
      else Some d
  | 3%nat =>
      if first_is "S"%char token then Some (negate_latitude d) else Some d
  | 4%nat =>
      if (0 <? List.length token)%nat then
        match convert_to_degrees token with
        | Some v =>
            Some (mk_gps_data (latitude d) v (altitude d) (satellites d)
                    (fix_quality d) (fix_valid d) (time d))
        | None => None
        end
      else Some d
  | 5%nat =>
      if first_is "W"%char token then Some (negate_longitude d) else Some d
  | 6%nat =>
      match atoi token with
      | Some q =>
          Some (mk_gps_data (latitude d) (longitude d) (altitude d)
                  (satellites d) q (fix_valid d) (time d))
      | None => None
      end
  | 7%nat =>
      match atoi token with
      | Some n =>
          Some (mk_gps_data (latitude d) (longitude d) (altitude d)
                  n (fix_quality d) (fix_valid d) (time d))
      | None => None
      end
  | 9%nat =>
      match Bluetooth.atof token with
      | Bluetooth.Finite q =>
          Some (mk_gps_data (latitude d) (longitude d) (Q2R q)
                  (satellites d) (fix_quality d) (fix_valid d) (time d))
      | _ => None
      end
  | _ => Some d
  end.

(** The [while] loop of [parse_gga_sentence]: the tokens in turn, the
    field counter starting at [field], until the tokens are exhausted
    or the counter reaches 15. *)
Fixpoint parse_fields (d : gps_data_t) (field : nat)
    (tokens : list (list ascii)) : option gps_data_t :=
  match tokens with
  | [] => Some d
  | token :: rest =>
      if (field <? 15)%nat then
        match parse_field d field token with
        | Some d' => parse_fields d' (S field) rest
        | None => None
        end
      else Some d
  end.

(** [parse_gga_sentence] (lines 49-99): the record it leaves in
    [current_gps_data] and the value it returns. *)
Definition parse_gga_sentence (d : gps_data_t) (sentence : list ascii)
  : option (gps_data_t * bool) :=
  match parse_fields d 0 (strtok_all sentence) with
  | Some d' =>
      let valid := ((satellites d' >=? 4) && (fix_quality d' >? 0))%Z in
      Some (mk_gps_data (latitude d') (longitude d') (altitude d')
              (satellites d') (fix_quality d') valid (time d'),
            valid)
  | None => None
  end.

(** The text a C string function sees in a buffer: the characters
    before the first NUL. *)
Fixpoint c_string (buffer : list ascii) : list ascii :=
  match buffer with
  | [] => []
  | c :: rest => if Ascii.eqb c zero then [] else c :: c_string rest
  end.

Fixpoint has_prefix (p s : list ascii) : bool :=
  match p, s with
  | [], _ => true
  | a :: p', c :: s' => Ascii.eqb a c && has_prefix p' s'
  | _ :: _, [] => false
  end.

(** [strncmp(buffer, "$GPGGA", 6) == 0] *)
Definition is_gpgga (text : list ascii) : bool :=
  has_prefix (list_ascii_of_string "$GPGGA") text.

Definition sizeof_buffer : nat := 256.

(** The [while] loop of [gps_update] (lines 123-140) over the
    characters [rx] the UART has ready.  [buffer] is
    [buffer[0 .. buffer_index - 1]], kept from one call to the next. *)
Fixpoint receive (d : gps_data_t) (buffer : list ascii) (rx : list ascii)
  : option (gps_data_t * list ascii) :=
  match rx with
  | [] => Some (d, buffer)
  | c :: rx' =>
      if BluetoothLine.is_newline c then
        if (0 <? List.length buffer)%nat then
          if is_gpgga (c_string buffer) then
            match parse_gga_sentence d (c_string buffer) with
            | Some (d', _) => receive d' [] rx'
            | None => None
            end
          else receive d [] rx'
        else receive d buffer rx'
      else if (List.length buffer <? sizeof_buffer - 1)%nat then
        receive d (buffer ++ [c]) rx'
      else receive d buffer rx'
  end.

(** The statics of gps.c together with the line buffer local to
    [gps_update]. *)
Record receiver : Type := mk_receiver {
  module : gps_module;
  line_buffer : list ascii
}.

(** [gps_update] (lines 116-143) on the characters the UART has
    ready. *)
Definition gps_update (r : receiver) (rx : list ascii)
  : option (receiver * bool) :=
  if negb (initialized (module r)) then Some (r, false)
  else
    match receive (current_gps_data (module r)) (line_buffer r) rx with
    | Some (d, buffer) =>
        Some ({| module := {| initialized := initialized (module r);
                              current_gps_data := d;
                              target_data := target_data (module r) |};
                 line_buffer := buffer |}, true)
    | None => None
    end.

(** The record after a fix was decoded: eight satellites, quality 1. *)
Definition with_fix : gps_data_t :=
  mk_gps_data 48 11 545 8%Z 1%Z true "123518".

(** The sentence a receiver sends while it has no fix: empty position
    fields, quality 0, no satellite. *)
Definition no_fix_sentence : list ascii :=
  list_ascii_of_string "$GPGGA,123519,,,,,0,00,99.99,,,,,,*48".

End GpsReceiver.

(** ** WALLY_S.c: the loop over several passes *)

Module WallyRun.

Import Wally.

(** The output limits [integration_test] gives the heading controller
    in [pid_init] (line 95). *)
Definition heading_limits (s : loop_state) : Prop :=
  Pid.output_min (heading_pid s) = -50 /\
  Pid.output_max (heading_pid s) = 50.

(** The [while (true)] of [integration_test] over the inputs of
    successive passes: the state after the last pass and the events of
    all of them, in order. *)
Fixpoint run (s : loop_state) (inputs : list tick_input)
  : option (loop_state * list event) :=
  match inputs with
  | [] => Some (s, [])
  | i :: rest =>
      match tick s i with
      | None => None
      | Some (s1, ev1) =>
          match run s1 rest with
          | None => None
          | Some (s2, ev2) => Some (s2, ev1 ++ ev2)
          end
      end
  end.

(** A pass in which the receiver reports a valid fix at [(lat, lng)]
    and no Bluetooth line arrives. *)
Definition fix_received (lat lng : R) (now : Z) : tick_input :=
  {| mag_bus := None;
     gps_received := [Gps.mk_gps_data lat lng 0 4%Z 1%Z true EmptyString];
     bt_buffer := EmptyString;
     clock_at_reset := now; clock_at_compute := now |}.

(** A line of 34 characters, which fits the 128 bytes of [bt_buffer]:
    a latitude, a comma and 32 digits. *)
Definition long_line : string :=
  "1,00000000000000000000000000000000".

Definition is_led_toggle (e : event) : bool :=
  match e with
  | LedToggle => true
  | _ => false
  end.

(** How many times a run of events blinks the LED, that is how many
    reports it sends. *)
Definition reports (evs : list event) : nat :=
  List.length (filter is_led_toggle evs).

End WallyRun.

(* ================================================================== *)
(** * Part II.  Properties                                             *)
(* ================================================================== *)

(** Settles the comparisons of reals a definition branches on, whenever
    the context decides them by linear arithmetic. *)
Ltac branch_R :=
  repeat match goal with
  | |- context [Rle_dec ?a ?b] => destruct (Rle_dec a b); try lra
  | |- context [Rlt_dec ?a ?b] => destruct (Rlt_dec a b); try lra
  | |- context [Rgt_dec ?a ?b] => destruct (Rgt_dec a b); try lra
  | |- context [Rge_dec ?a ?b] => destruct (Rge_dec a b); try lra
  | |- context [Req_dec_T ?a ?b] => destruct (Req_dec_T a b); try lra
  end.

(** ** Time stamps of the controller *)

Section Timestamps.

Import Pid.

Lemma uint32_sub_range (a b : Z) : C.is_uint32 (C.uint32_sub a b).
Proof.
  unfold C.is_uint32, C.uint32_sub, C.uint32.
  apply Z.mod_pos_bound. lia.
Qed.

Lemma uint32_sub_diag (a : Z) : C.uint32_sub a a = 0%Z.
Proof.
  unfold C.uint32_sub, C.uint32. now rewrite Z.sub_diag, Z.mod_0_l.
Qed.

Lemma uint32_sub_wraps (a b : Z) :
  C.is_uint32 a -> C.is_uint32 b ->
  C.uint32_sub a b = (if a <? b then a - b + 2 ^ 32 else a - b)%Z.
Proof.
  unfold C.is_uint32, C.uint32_sub, C.uint32. intros Ha Hb.
  destruct (Z.ltb_spec a b) as [Hlt | Hge].
  - symmetry. apply Z.mod_unique with (q := (-1)%Z); lia.
  - apply Z.mod_small. lia.
Qed.

Lemma uint32_sub_zero (a b : Z) :
  C.is_uint32 a -> C.is_uint32 b -> (C.uint32_sub a b = 0%Z <-> a = b).
Proof.
  intros Ha Hb. rewrite (uint32_sub_wraps a b Ha Hb).
  unfold C.is_uint32 in *. destruct (Z.ltb_spec a b); lia.
Qed.

Lemma elapsed_seconds_nonneg (now last : Z) :
  0 <= elapsed_seconds now last.
Proof.
  unfold elapsed_seconds.
  destruct (uint32_sub_range now last) as [H _].
  apply IZR_le in H. lra.
Qed.

Lemma elapsed_seconds_zero (now last : Z) :
  elapsed_seconds now last = 0 <-> C.uint32_sub now last = 0%Z.
Proof.
  unfold elapsed_seconds. split; intros H.
  - apply eq_IZR. lra.
  - rewrite H. lra.
Qed.

Lemma elapsed_seconds_diag (t : Z) : elapsed_seconds t t = 0.
Proof. apply elapsed_seconds_zero, uint32_sub_diag. Qed.

End Timestamps.

(** ** The controller of pid.c *)

Section Controller.

Import Pid.

(** The guard of [pid_compute]: nothing happens on a controller that
    is not initialised or when no time has elapsed. *)
Lemma pid_compute_skips (pid : pid_controller_t) (input : R) (t : Z) :
  initialized pid = false \/ elapsed_seconds t (last_time pid) <= 0 ->
  pid_compute pid input t = (0, pid).
Proof.
  intros [H | H]; unfold pid_compute.
  - now rewrite H.
  - destruct (initialized pid); simpl; [ | reflexivity ].
    destruct (Rle_dec _ 0); [ reflexivity | contradiction ].
Qed.

(** Past the guard, the call stamps the controller with the time and
    the input it was given. *)
Lemma pid_compute_updates (pid : pid_controller_t) (input : R) (t : Z) :
  initialized pid = true -> 0 < elapsed_seconds t (last_time pid) ->
  let pid' := snd (pid_compute pid input t) in
  last_time pid' = t /\ last_input pid' = input /\
  initialized pid' = true.
Proof.
  intros Hi Hdt. unfold pid_compute. rewrite Hi. simpl.
  destruct (Rle_dec _ 0) as [Hle | _]; [ lra | ].
  destruct (Rgt_dec _ _); [ | destruct (Rlt_dec _ _) ]; simpl; auto.
Qed.

(** After any call at time [t] the controller either carries the stamp
    [t] or is the one the guard left alone. *)
Lemma pid_compute_stamp (pid : pid_controller_t) (input : R) (t : Z) :
  let pid' := snd (pid_compute pid input t) in
  initialized pid' = false \/ elapsed_seconds t (last_time pid') <= 0.
Proof.
  destruct (initialized pid) eqn:Hi.
  - destruct (Rle_dec (elapsed_seconds t (last_time pid)) 0) as [Hle | Hgt].
    + rewrite pid_compute_skips by auto. simpl. auto.
    + destruct (pid_compute_updates pid input t Hi) as (Ht & _); [ lra | ].
      simpl. right. rewrite Ht, elapsed_seconds_diag. lra.
  - rewrite pid_compute_skips by auto. simpl. auto.
Qed.

End Controller.

Section ControllerClaims.

Import Pid.

Lemma elapsed_seconds_50ms : elapsed_seconds 50000 0 = 5 / 100.
Proof.
  unfold elapsed_seconds.
  replace (C.uint32_sub 50000 0) with 50000%Z by reflexivity. lra.
Qed.

Lemma step_response_first_output :
  fst (pid_compute step_response 0 50000) = 100.
Proof.
  unfold pid_compute, step_response, pid_set_setpoint, pid_init. simpl.
  rewrite elapsed_seconds_50ms.
  destruct (Rle_dec (5 / 100) 0) as [H | _]; [ lra | ].
  destruct (Rgt_dec _ 100) as [_ | H]; [ reflexivity | ].
  exfalso. apply H. lra.
Qed.

(** C3, as amended.  When [pid_compute] is called a second time with
    the time stamp of the call before it, the second call returns 0
    and leaves the whole controller, [integral_sum] and [last_input]
    included, as the first call left it. *)
Theorem pid_compute_same_timestamp_is_noop
    (pid : pid_controller_t) (input input' : R) (t : Z) :
  let after_first := snd (pid_compute pid input t) in
  pid_compute after_first input' t = (0, after_first) /\
  integral_sum (snd (pid_compute after_first input' t))
    = integral_sum after_first /\
  last_input (snd (pid_compute after_first input' t))
    = last_input after_first.
Proof.
  intros after_first.
  assert (H : pid_compute after_first input' t = (0, after_first))
    by (apply pid_compute_skips, pid_compute_stamp).
  rewrite H. simpl. auto.
Qed.

(** C3, as stated, fails: on the step response of [pid_test] the first
    call returns 100 and the call repeated at the same time stamp
    returns 0, not the same output. *)
Lemma pid_compute_same_timestamp_output_differs :
  ~ (fst (pid_compute (snd (pid_compute step_response 0 50000)) 0 50000)
     = fst (pid_compute step_response 0 50000)).
Proof.
  rewrite (pid_compute_skips _ 0 50000) by apply pid_compute_stamp.
  rewrite step_response_first_output. simpl. lra.
Qed.

End ControllerClaims.

Section ControllerTiming.

Import Pid.

(** C10.  For 32-bit time stamps the [dt] of [pid_compute] is never
    negative and is zero exactly when the two stamps are equal, so the
    guard [dt <= 0] fires only then; when the counter has wrapped
    ([now < last]) [dt] is the positive (2^32 - (last - now)) / 10^6,
    and the call is not skipped: it stamps the controller and, while
    the output stays within the limits, adds [error * dt] to the
    integral. *)
Theorem pid_dt_is_unsigned_difference (now last : Z) :
  C.is_uint32 now -> C.is_uint32 last ->
  let dt := elapsed_seconds now last in
  0 <= dt /\
  (dt = 0 <-> now = last) /\
  (dt <= 0 <-> now = last) /\
  ((now < last)%Z ->
     dt = IZR (2 ^ 32 - (last - now)) / 1000000 /\ 0 < dt) /\
  (forall (pid : pid_controller_t) (input : R),
     initialized pid = true -> last_time pid = last -> now <> last ->
     let error := setpoint pid - input in
     let isum := integral_sum pid + error * dt in
     let raw := kp pid * error + ki pid * isum
                - kd pid * (input - last_input pid) / dt in
     let pid' := snd (pid_compute pid input now) in
     last_time pid' = now /\ last_input pid' = input /\
     (output_min pid <= raw <= output_max pid ->
      fst (pid_compute pid input now) = raw /\ integral_sum pid' = isum)).
Proof.
  intros Hn Hl dt.
  assert (Hpos : 0 <= dt) by apply elapsed_seconds_nonneg.
  assert (Hzero : dt = 0 <-> now = last).
  { unfold dt. rewrite elapsed_seconds_zero. now apply uint32_sub_zero. }
  split; [ exact Hpos | ]. split; [ exact Hzero | ].
  split; [ | split ].
  - split; intros H.
    + apply Hzero. lra.
    + apply Hzero in H. lra.
  - intros Hlt.
    assert (Heq : dt = IZR (2 ^ 32 - (last - now)) / 1000000).
    { unfold dt, elapsed_seconds. rewrite (uint32_sub_wraps _ _ Hn Hl).
      apply Z.ltb_lt in Hlt. rewrite Hlt.
      f_equal. f_equal. lia. }
    split; [ exact Heq | ].
    destruct (Req_dec dt 0) as [H0 | H0]; [ | lra ].
    apply Hzero in H0. lia.
  - intros pid input Hi Ht Hne error isum raw pid'.
    assert (Hdt : 0 < elapsed_seconds now (last_time pid)).
    { rewrite Ht. fold dt.
      destruct (Req_dec dt 0) as [H0 | H0]; [ | lra ].
      apply Hzero in H0. contradiction. }
    destruct (pid_compute_updates pid input now Hi Hdt) as (H1 & H2 & _).
    split; [ exact H1 | ]. split; [ exact H2 | ].
    intros [Hlo Hhi]. unfold pid', pid_compute. rewrite Hi. simpl.
    rewrite Ht. fold dt. fold error. fold isum. fold raw.
    destruct (Rle_dec dt 0) as [Hle | _].
    { rewrite Ht in Hdt. fold dt in Hdt. lra. }
    destruct (Rgt_dec raw (output_max pid)) as [Hgt | _]; [ lra | ].
    destruct (Rlt_dec raw (output_min pid)) as [Hlt | _]; [ lra | ].
    simpl. auto.
Qed.

(** The hypotheses of C10 hold on a wrapped counter: the last update
    was 5 microseconds before the counter wrapped, the present call is
    at 10 microseconds after. *)
Lemma pid_dt_is_unsigned_difference_witness :
  C.is_uint32 10 /\ C.is_uint32 (2 ^ 32 - 5) /\
  0 <= elapsed_seconds 10 (2 ^ 32 - 5).
Proof.
  assert (Hn : C.is_uint32 10) by (unfold C.is_uint32; lia).
  assert (Hl : C.is_uint32 (2 ^ 32 - 5)) by (unfold C.is_uint32; lia).
  split; [ exact Hn | ]. split; [ exact Hl | ].
  exact (proj1 (pid_dt_is_unsigned_difference 10 (2 ^ 32 - 5) Hn Hl)).
Defined.

(** C7.  With [ki = 0], on an initialised controller whose limits are
    in order and for a positive [dt], [pid_compute] returns exactly
    clamp(kp * (setpoint - input) - kd * (input - last_input) / dt,
    output_min, output_max). *)
Theorem pid_compute_without_integral_gain
    (pid : pid_controller_t) (input : R) (now : Z) :
  initialized pid = true ->
  ki pid = 0 ->
  0 < elapsed_seconds now (last_time pid) ->
  output_min pid <= output_max pid ->
  let dt := elapsed_seconds now (last_time pid) in
  fst (pid_compute pid input now)
  = clamp (kp pid * (setpoint pid - input)
           - kd pid * (input - last_input pid) / dt)
          (output_min pid) (output_max pid).
Proof.
  intros Hi Hki Hdt Hlim dt. unfold pid_compute. rewrite Hi. simpl.
  fold dt. fold dt in Hdt. rewrite Hki.
  destruct (Rle_dec dt 0) as [Hle | _]; [ lra | ].
  set (p := kp pid * (setpoint pid - input)).
  set (d := kd pid * (input - last_input pid) / dt).
  set (i := 0 * _).
  assert (Hi0 : i = 0) by (unfold i; ring).
  unfold clamp, Rmin.
  destruct (Rle_dec (p - d) (output_max pid));
    unfold Rmax; destruct (Rle_dec (output_min pid) _);
    (destruct (Rgt_dec (p + i - d) (output_max pid));
     [ | destruct (Rlt_dec (p + i - d) (output_min pid)) ]);
    simpl; lra.
Qed.

(** The hypotheses of C7 hold on a proportional-derivative controller
    50 ms after its initialisation. *)
Lemma pid_compute_without_integral_gain_witness :
  fst (pid_compute (pid_init 0 2 0 (2 / 10) (-50) 50) 10 50000)
  = clamp (2 * (0 - 10) - 2 / 10 * (10 - 0) / elapsed_seconds 50000 0)
          (-50) 50.
Proof.
  apply (pid_compute_without_integral_gain
           (pid_init 0 2 0 (2 / 10) (-50) 50) 10 50000).
  - reflexivity.
  - reflexivity.
  - simpl. rewrite elapsed_seconds_50ms. lra.
  - simpl. lra.
Defined.

End ControllerTiming.

(** ** The heading error of pid.c *)

Section HeadingError.

Import Pid.

(** A loop that does not start returns its argument. *)
Lemma while_above_180_idle (n : nat) (e : R) :
  e <= 180 -> while_above_180 n e = Some e.
Proof.
  intros He. destruct n; simpl; destruct (Rgt_dec e 180); auto; lra.
Qed.

(** The first loop stops within [n] iterations on every error up to
    [180 + 360 n]; it leaves an error of at most 180, above -180 when
    it iterated at all. *)
Lemma while_above_180_terminates (n : nat) :
  forall e : R,
    e <= 180 + 360 * INR n ->
    exists r,
      while_above_180 n e = Some r /\ r <= 180 /\
      (e <= 180 -> r = e) /\ (180 < e -> -180 < r).
Proof.
  induction n as [ | n IH ]; intros e He.
  - simpl in *. destruct (Rgt_dec e 180) as [Hgt | Hle]; [ lra | ].
    exists e. repeat split; auto; lra.
  - rewrite S_INR in He. simpl.
    destruct (Rgt_dec e 180) as [Hgt | Hle].
    + destruct (IH (e - 360)) as (r & Hr & Hup & Hsame & Hlow); [ lra | ].
      exists r. split; [ exact Hr | ]. split; [ exact Hup | ].
      split; [ lra | ]. intros _.
      destruct (Rle_or_lt (e - 360) 180) as [H | H].
      * rewrite (Hsame H). lra.
      * auto.
    + exists e. repeat split; auto; lra.
Qed.

(** Allowing more iterations does not change a result. *)
Lemma while_above_180_more_fuel (n : nat) :
  forall (m : nat) (e r : R),
    (n <= m)%nat ->
    while_above_180 n e = Some r -> while_above_180 m e = Some r.
Proof.
  induction n as [ | n IH ]; intros m e r Hnm; simpl.
  - destruct (Rgt_dec e 180) as [Hgt | Hle]; [ discriminate | ].
    intros H. rewrite while_above_180_idle; [ exact H | lra ].
  - destruct m as [ | m ]; [ lia | ]. simpl.
    destruct (Rgt_dec e 180); [ | auto ].
    apply IH. lia.
Qed.

(** The second loop is the mirror image of the first. *)
Lemma while_below_mirror (n : nat) :
  forall e : R,
    while_below_minus_180 n (- e) = option_map Ropp (while_above_180 n e).
Proof.
  induction n as [ | n IH ]; intros e; simpl.
  - destruct (Rlt_dec (- e) (-180)), (Rgt_dec e 180); simpl;
      try reflexivity; lra.
  - destruct (Rlt_dec (- e) (-180)), (Rgt_dec e 180); simpl;
      try reflexivity; try lra.
    replace (- e + 360) with (- (e - 360)) by ring. apply IH.
Qed.

Lemma while_above_mirror (n : nat) (e : R) :
  while_above_180 n (- e) = option_map Ropp (while_below_minus_180 n e).
Proof.
  rewrite <- (Ropp_involutive e) at 2. rewrite while_below_mirror.
  destruct (while_above_180 n (- e)); simpl; [ | reflexivity ].
  now rewrite Ropp_involutive.
Qed.

Lemma while_below_minus_180_idle (n : nat) (e : R) :
  -180 <= e -> while_below_minus_180 n e = Some e.
Proof.
  intros He. destruct n; simpl; destruct (Rlt_dec e (-180)); auto; lra.
Qed.

Lemma while_below_minus_180_more_fuel (n m : nat) (e r : R) :
  (n <= m)%nat ->
  while_below_minus_180 n e = Some r ->
  while_below_minus_180 m e = Some r.
Proof.
  intros Hnm. rewrite <- (Ropp_involutive e), !while_below_mirror.
  destruct (while_above_180 n (- e)) as [ r' | ] eqn:Hr'; [ | discriminate ].
  now rewrite (while_above_180_more_fuel n m (- e) r' Hnm Hr').
Qed.

Lemma pid_heading_error_more_fuel (n m : nat) (a b r : R) :
  (n <= m)%nat ->
  pid_heading_error n a b = Some r -> pid_heading_error m a b = Some r.
Proof.
  intros Hnm. unfold pid_heading_error.
  destruct (while_above_180 n (a - b)) as [ r1 | ] eqn:H1; [ | discriminate ].
  rewrite (while_above_180_more_fuel n m _ r1 Hnm H1).
  now apply while_below_minus_180_more_fuel.
Qed.

(** With enough iterations allowed, the function returns a value of
    [-180, 180], and exchanging its arguments negates the value. *)
Lemma pid_heading_error_enough_fuel (n : nat) (a b : R) :
  Rabs (a - b) <= 180 + 360 * INR n ->
  exists r,
    pid_heading_error n a b = Some r /\
    pid_heading_error n b a = Some (- r) /\
    -180 <= r <= 180.
Proof.
  intros Hn. unfold pid_heading_error.
  replace (b - a) with (- (a - b)) by ring.
  set (e := a - b) in *.
  assert (He : e <= 180 + 360 * INR n /\ - e <= 180 + 360 * INR n).
  { unfold Rabs in Hn. destruct (Rcase_abs e); lra. }
  destruct He as [Hup Hdown].
  destruct (Rle_or_lt e 180) as [Hle | Hgt].
  - rewrite (while_above_180_idle n e Hle).
    destruct (while_above_180_terminates n (- e) Hdown)
      as (r & Hr & Hr180 & Hsame & Hlow).
    rewrite Hr. rewrite (while_below_minus_180_idle n r).
    + rewrite <- (Ropp_involutive e), while_below_mirror, Hr. simpl.
      exists (- r). rewrite Ropp_involutive.
      repeat split; auto; try lra.
    + destruct (Rle_or_lt (- e) 180) as [H | H].
      * rewrite (Hsame H). lra.
      * specialize (Hlow H). lra.
  - destruct (while_above_180_terminates n e Hup)
      as (r & Hr & Hr180 & _ & Hlow).
    specialize (Hlow Hgt).
    rewrite Hr. rewrite (while_below_minus_180_idle n r) by lra.
    rewrite (while_above_180_idle n (- e)) by lra.
    rewrite while_below_mirror, Hr. simpl.
    exists r. repeat split; auto; lra.
Qed.

(** C6.  For all headings [a] and [b], numbers between 0 and 360 as
    the header documents them, [pid_heading_error] returns after at
    most one iteration of one of its loops, with a result [r] of
    [-180, 180] that is [a - b] up to one full turn, and the result for
    the arguments exchanged is [- r] (at the boundary too: 180 one way,
    -180 the other); the error from heading 350 to the bearing 10 is
    20. *)
Theorem pid_heading_error_range_and_antisymmetry :
  (forall a b : R,
     0 <= a <= 360 -> 0 <= b <= 360 ->
     exists r : R,
       -180 <= r <= 180 /\
       (r = a - b \/ r = a - b - 360 \/ r = a - b + 360) /\
       forall fuel : nat,
         (1 <= fuel)%nat ->
         pid_heading_error fuel a b = Some r /\
         pid_heading_error fuel b a = Some (- r)) /\
  (forall fuel : nat, pid_heading_error (S fuel) 10 350 = Some 20).
Proof.
  split.
  - intros a b Ha Hb.
    assert (Hn : Rabs (a - b) <= 180 + 360 * INR 1).
    { simpl. unfold Rabs. destruct (Rcase_abs (a - b)); lra. }
    destruct (pid_heading_error_enough_fuel 1 a b Hn)
      as (r & Hab & Hba & Hr).
    exists r. split; [ exact Hr | ]. split.
    + revert Hab. unfold pid_heading_error. cbn [while_above_180].
      destruct (Rgt_dec (a - b) 180) as [Hgt | Hle].
      * destruct (Rgt_dec (a - b - 360) 180) as [H | _]; [ lra | ].
        rewrite while_below_minus_180_idle by lra.
        intros E. injection E as <-. auto.
      * cbn [while_below_minus_180].
        destruct (Rlt_dec (a - b) (-180)) as [Hlt | Hge].
        -- destruct (Rlt_dec (a - b + 360) (-180)) as [H | _]; [ lra | ].
           intros E. injection E as <-. auto.
        -- intros E. injection E as <-. auto.
    + intros fuel Hfuel. split.
      * exact (pid_heading_error_more_fuel 1 fuel a b r Hfuel Hab).
      * exact (pid_heading_error_more_fuel 1 fuel b a (- r) Hfuel Hba).
  - intros fuel. unfold pid_heading_error. simpl.
    destruct (Rgt_dec (10 - 350) 180) as [H | _]; [ lra | ].
    destruct (Rlt_dec (10 - 350) (-180)) as [_ | H]; [ | lra ].
    rewrite while_below_minus_180_idle by lra. f_equal. lra.
Qed.

(** The seam scenario of C6, obtained from the theorem: one iteration
    allowed, heading 350, bearing 10. *)
Lemma pid_heading_error_range_and_antisymmetry_witness :
  pid_heading_error 1 10 350 = Some 20 /\
  pid_heading_error 1 350 10 = Some (- 20).
Proof.
  destruct (proj1 pid_heading_error_range_and_antisymmetry 10 350)
    as (r & _ & _ & Hr); [ lra | lra | ].
  destruct (Hr 1%nat (le_n 1)) as [Hab Hba].
  pose proof (proj2 pid_heading_error_range_and_antisymmetry 0%nat) as H20.
  assert (E : r = 20) by congruence.
  rewrite E in Hba. split; assumption.
Defined.

End HeadingError.

(** ** Distance and arrival of gps.c *)

Section Geodesy.

Import Gps.





(** Over [R] the haversine term lies in [0, 1] whatever the
    coordinates: both square roots of [haversine] are taken of
    non-negative numbers. *)
Lemma haversine_a_range (lat1 lng1 lat2 lng2 : R) :
  0 <= haversine_a lat1 lng1 lat2 lng2 <= 1.
Proof.
  unfold haversine_a.
  set (p1 := lat1 * PI / 180). set (p2 := lat2 * PI / 180).
  set (dl := (lng2 - lng1) * PI / 180 / 2).
  replace ((lat2 - lat1) * PI / 180 / 2) with ((p2 - p1) / 2)
    by (unfold p1, p2; field).
  assert (Hhalf : sin ((p2 - p1) / 2) * sin ((p2 - p1) / 2)
                  = (1 - cos (p2 - p1)) / 2).
  { replace (p2 - p1) with (2 * ((p2 - p1) / 2)) at 3 by field.
    rewrite cos_2a_sin. field. }
  rewrite Hhalf, cos_minus.
  pose proof (sin2_cos2 p1) as H1. pose proof (sin2_cos2 p2) as H2.
  pose proof (sin2_cos2 dl) as Hd. unfold Rsqr in H1, H2, Hd.
  set (s1 := sin p1) in *. set (c1 := cos p1) in *.
  set (s2 := sin p2) in *. set (c2 := cos p2) in *.
  set (u := sin dl) in *. set (v := cos dl) in *.
  replace ((1 - (c2 * c1 + s2 * s1)) / 2 + c1 * c2 * u * u)
    with ((1 - (s1 * s2 + c1 * c2 * (1 - 2 * (u * u)))) / 2) by field.
  assert (Hw : -1 <= 1 - 2 * (u * u) <= 1) by nra.
  set (w := 1 - 2 * (u * u)) in *.
  assert (Hww : w * w <= 1) by nra.
  assert (Hc : c2 * c2 * (w * w) <= c2 * c2) by nra.
  split.
  - pose proof (Rle_0_sqr (s1 - s2)) as Q1.
    pose proof (Rle_0_sqr (c1 - c2 * w)) as Q2.
    unfold Rsqr in Q1, Q2. nra.
  - pose proof (Rle_0_sqr (s1 + s2)) as Q1.
    pose proof (Rle_0_sqr (c1 + c2 * w)) as Q2.
    unfold Rsqr in Q1, Q2. nra.
Qed.

Lemma gps_distance_with_fix (g : gps_module) :
  fix_valid (current_gps_data g) = true ->
  target_set (target_data g) = true ->
  gps_distance_to_target g
  = haversine (latitude (current_gps_data g))
              (longitude (current_gps_data g))
              (target_latitude (target_data g))
              (target_longitude (target_data g)).
Proof.
  intros Hf Ht. unfold gps_distance_to_target. now rewrite Hf, Ht.
Qed.




(** C9.  When the fix is not valid or no target is set,
    [gps_distance_to_target] returns 0 and [gps_target_reached]
    returns true; the loop never asks in such a state, its guard
    leaves the pass without a navigation step. *)
Theorem gps_target_reached_without_fix_or_target (g : gps_module) :
  fix_valid (current_gps_data g) = false \/
  target_set (target_data g) = false ->
  gps_distance_to_target g = 0 /\
  gps_target_reached g = true /\
  forall (s : Wally.loop_state) (heading : R) (now : Z),
    Wally.gps s = g ->
    Wally.navigate s heading (gps_get_data g) now = (s, []).
Proof.
  intros H.
  assert (Hd : gps_distance_to_target g = 0).
  { unfold gps_distance_to_target.
    destruct H as [H | H]; rewrite H; simpl;
      [ reflexivity | now rewrite orb_true_r ]. }
  split; [ exact Hd | ]. split.
  - unfold gps_target_reached. rewrite Hd.
    destruct (Rlt_dec 0 2); [ reflexivity | lra ].
  - intros s heading now Hs. unfold Wally.navigate, gps_get_data.
    rewrite Hs. unfold gps_has_target.
    destruct H as [H | H]; rewrite H;
      now rewrite ?andb_false_r.
Qed.

(** The hypothesis of C9 holds before the first fix and the first
    target: the module's initial state. *)
Lemma gps_target_reached_without_fix_or_target_witness :
  gps_distance_to_target power_on = 0 /\
  gps_target_reached power_on = true.
Proof.
  destruct (gps_target_reached_without_fix_or_target power_on)
    as (Hd & Hr & _).
  - left. reflexivity.
  - split; [ exact Hd | exact Hr ].
Defined.

End Geodesy.

(** ** Bounds on PI and on arc tangents *)

Section Trigonometry.

Lemma cos_approx_1 (a : R) : cos_approx a 1 = 1 - a * a / 2.
Proof. unfold cos_approx, cos_term. simpl. field. Qed.

Lemma cos_approx_3 (a : R) :
  cos_approx a 3 = 1 - a ^ 2 / 2 + a ^ 4 / 24 - a ^ 6 / 720.
Proof.
  unfold cos_approx, cos_term. simpl sum_f_R0. field.
Qed.

Lemma sin_approx_1 (a : R) : sin_approx a 1 = a - a ^ 3 / 6.
Proof.
  unfold sin_approx, sin_term. simpl sum_f_R0. field.
Qed.

Lemma PI_above_31 : 31 / 10 < PI.
Proof.
  assert (H : 155 / 100 < PI / 2); [ | lra ].
  apply PI2_lower_bound; [ lra | ].
  destruct (pre_cos_bound (155 / 100) 1) as [Hlow _]; [ lra | lra | ].
  change (2 * 1 + 1)%nat with 3%nat in Hlow.
  rewrite cos_approx_3 in Hlow. lra.
Qed.

Lemma cos_lower (c : R) : 0 <= c <= 1 -> 1 - c * c / 2 <= cos c.
Proof.
  intros Hc. destruct (pre_cos_bound c 0) as [Hlow _]; [ lra | lra | ].
  change (2 * 0 + 1)%nat with 1%nat in Hlow.
  now rewrite cos_approx_1 in Hlow.
Qed.

Lemma sin_lower (c : R) : 0 <= c <= 1 -> c - c ^ 3 / 6 <= sin c.
Proof.
  intros Hc. pose proof PI_above_31 as Hpi.
  destruct (sin_bound c 0) as [Hlow _]; [ lra | lra | ].
  change (2 * 0 + 1)%nat with 1%nat in Hlow.
  now rewrite sin_approx_1 in Hlow.
Qed.

(** [tan c] between [c - c^3/6] and [c / (1 - c^2/2)] on (0, 1]. *)
Lemma tan_bounds (c : R) :
  0 < c <= 1 ->
  c - c ^ 3 / 6 <= tan c /\ tan c * (1 - c * c / 2) <= c.
Proof.
  intros Hc. pose proof PI_above_31 as Hpi.
  assert (Hcos : 1 - c * c / 2 <= cos c) by (apply cos_lower; lra).
  assert (Hcos1 : cos c <= 1) by apply COS_bound.
  assert (Hcos0 : 0 < cos c) by (apply cos_gt_0; lra).
  assert (Hsin : c - c ^ 3 / 6 <= sin c) by (apply sin_lower; lra).
  assert (Hsinx : sin c < c) by (apply sin_lt_x; lra).
  assert (Hsin0 : 0 < sin c) by (apply sin_gt_0; lra).
  assert (Htan : tan c * cos c = sin c).
  { unfold tan. field. lra. }
  assert (Htan0 : 0 < tan c) by (apply tan_gt_0; lra).
  split; nra.
Qed.

Lemma atan_below (t c : R) : 0 < c <= 1 -> t < c - c ^ 3 / 6 -> atan t < c.
Proof.
  intros Hc Ht. pose proof PI_above_31 as Hpi.
  destruct (tan_bounds c Hc) as [Hlow _].
  rewrite <- (atan_tan c) by lra.
  apply atan_increasing. lra.
Qed.

Lemma atan_above (t c : R) :
  0 < c <= 1 -> c < t * (1 - c * c / 2) -> c < atan t.
Proof.
  intros Hc Ht. pose proof PI_above_31 as Hpi.
  destruct (tan_bounds c Hc) as [_ Hup].
  rewrite <- (atan_tan c) at 1 by lra.
  apply atan_increasing.
  assert (H1 : 0 < 1 - c * c / 2) by nra.
  nra.
Qed.

Lemma atan_positive (t : R) : 0 < t -> 0 < atan t.
Proof. intros Ht. rewrite <- atan_0. now apply atan_increasing. Qed.

(** [atan2] takes its values in [- PI, PI]. *)
Lemma atan2_range (y x : R) : - PI <= C.atan2 y x <= PI.
Proof.
  pose proof PI_RGT_0 as Hpi. unfold C.atan2.
  destruct (Rlt_dec 0 x) as [Hx | Hx].
  - destruct (atan_bound (y / x)). lra.
  - destruct (Rlt_dec x 0) as [Hx' | Hx'].
    + destruct (atan_bound (y / x)) as [Hl Hu].
      destruct (Rle_dec 0 y) as [Hy | Hy].
      * assert (Hq : y / x <= 0).
        { assert (Hi : / x < 0) by now apply Rinv_lt_0_compat.
          unfold Rdiv. nra. }
        assert (Ha : atan (y / x) <= 0).
        { destruct Hq as [Hq | Hq].
          - left. rewrite <- atan_0. now apply atan_increasing.
          - rewrite Hq, atan_0. lra. }
        lra.
      * assert (Hq : 0 < y / x).
        { assert (Hi : / x < 0) by now apply Rinv_lt_0_compat.
          unfold Rdiv. nra. }
        pose proof (atan_positive _ Hq). lra.
    + destruct (Rlt_dec 0 y); [ lra | ].
      destruct (Rlt_dec y 0); lra.
Qed.

End Trigonometry.

(** ** The heading filter of magnetometer.c *)

Section HeadingFilter.

Import Magnetometer.

(** Over [R], one step of the filter keeps the heading in [0, 360) for
    every sample within two and a half turns of zero. *)
Lemma low_pass_range (filtered new_heading : R) :
  0 <= filtered < 360 ->
  -900 <= new_heading <= 900 ->
  0 <= low_pass filtered new_heading < 360.
Proof.
  intros Hf Hn. unfold low_pass, ALPHA. branch_R.
Qed.

(** On a sample that is itself a heading of [0, 360) the filtered
    heading moves by at most ALPHA * 180 = 108 degrees of arc. *)
Lemma low_pass_jump (filtered new_heading : R) :
  0 <= filtered < 360 ->
  0 <= new_heading < 360 ->
  arc filtered (low_pass filtered new_heading) <= 108.
Proof.
  intros Hf Hn.
  assert (H : exists d,
             -108 <= d <= 108 /\
             (low_pass filtered new_heading = filtered + d \/
              low_pass filtered new_heading = filtered + d + 360 \/
              low_pass filtered new_heading = filtered + d - 360)).
  { unfold low_pass, ALPHA.
    destruct (Rgt_dec (new_heading - filtered) 180);
      [ exists (6 / 10 * (new_heading - filtered - 360))
      | destruct (Rlt_dec (new_heading - filtered) (-180));
        [ exists (6 / 10 * (new_heading - filtered + 360))
        | exists (6 / 10 * (new_heading - filtered)) ] ];
      (split; [ lra | ]); branch_R. }
  destruct H as (d & Hd & Hg).
  unfold arc, Rmin.
  destruct (Rle_dec _ _); unfold Rabs in *;
    destruct (Rcase_abs _); lra.
Qed.

(** What [magnetometer_calculate_heading] can return: for a
    declination of at most one radian either way the value lies in
    [-540, 540], not in [0, 360). *)
Lemma magnetometer_calculate_heading_range (m : mag_module) (x y : Z) :
  -1 <= declination_angle m <= 1 ->
  -540 <= magnetometer_calculate_heading m x y <= 540.
Proof.
  intros Hd. unfold magnetometer_calculate_heading.
  pose proof (atan2_range (IZR y) (IZR x)) as Ha.
  pose proof PI_4 as Hpi.
  branch_R.
Qed.

Lemma get_filtered_heading_range (m : mag_module)
    (bus : option (Z * Z * Z)) :
  0 <= filtered_heading m < 360 ->
  -1 <= declination_angle m <= 1 ->
  let (h, m') := magnetometer_get_filtered_heading m bus in
  0 <= h < 360 /\ h = filtered_heading m' /\
  declination_angle m' = declination_angle m.
Proof.
  intros Hf Hd. unfold magnetometer_get_filtered_heading.
  destruct (magnetometer_read_raw m bus) as [ [ [x y] z ] | ]; simpl.
  - split; [ | auto ].
    apply low_pass_range; [ exact Hf | ].
    pose proof (magnetometer_calculate_heading_range m x y Hd). lra.
  - auto.
Qed.

(** Over [R], every heading the estimator returns is in [0, 360),
    whatever the magnetometer delivers; with the rounding of the last
    sum of the filter the upper end is included. *)
Lemma headings_range (samples : list (option (Z * Z * Z))) :
  forall m : mag_module,
    0 <= filtered_heading m < 360 ->
    -1 <= declination_angle m <= 1 ->
    Forall (fun h => 0 <= h < 360) (headings m samples).
Proof.
  induction samples as [ | s rest IH ]; intros m Hf Hd; simpl.
  - constructor.
  - pose proof (get_filtered_heading_range m s Hf Hd) as H.
    destruct (magnetometer_get_filtered_heading m s) as [h m'].
    destruct H as (Hh & Heq & Hd').
    constructor; [ exact Hh | ].
    apply IH; [ now rewrite <- Heq | now rewrite Hd' ].
Qed.

End HeadingFilter.

Section HeadingFilterSlip.

Import Magnetometer.

Lemma atan_tenth : 9 / 100 < atan (1 / 10) < 101 / 1000.
Proof.
  split.
  - apply atan_above; lra.
  - apply atan_below; lra.
Qed.

Lemma atan_thousandth : 0 < atan (1 / 1000) < 2 / 1000.
Proof.
  split.
  - apply atan_positive. lra.
  - apply atan_below; lra.
Qed.

(** The raw sample x = 10, y = -1 gives a heading about 350. *)
Lemma heading_of_first_sample :
  349 < magnetometer_calculate_heading ready 10 (-1) < 3511 / 10.
Proof.
  unfold magnetometer_calculate_heading, ready, C.atan2. simpl.
  destruct (Rlt_dec 0 10) as [_ | H]; [ | lra ].
  replace (-1 / 10) with (- (1 / 10)) by field.
  rewrite atan_opp. pose proof atan_tenth as Ha.
  branch_R.
Qed.

(** The raw sample x = -1000, y = -1 gives a negative "heading":
    [atan2] is multiplied by 180 and not divided by PI, and one turn
    added does not bring the value back into [0, 360). *)
Lemma heading_of_second_sample :
  -353 < magnetometer_calculate_heading ready (-1000) (-1) < -190.
Proof.
  unfold magnetometer_calculate_heading, ready, C.atan2. simpl.
  destruct (Rlt_dec 0 (-1000)) as [H | _]; [ lra | ].
  destruct (Rlt_dec (-1000) 0) as [_ | H]; [ | lra ].
  destruct (Rle_dec 0 (-1)) as [H | _]; [ lra | ].
  replace (-1 / -1000) with (1 / 1000) by field.
  pose proof atan_thousandth as Ha.
  pose proof PI_above_31 as Hpi. pose proof PI_4 as Hpi4.
  branch_R.
Qed.

(** C2 on the code.  From the state after initialisation (filtered
    heading 0), the raw samples (10, -1) and then (-1000, -1) make
    [magnetometer_get_filtered_heading] return two headings of
    [0, 360) that are more than 108 degrees of arc apart. *)
Theorem filtered_heading_jump_exceeds_alpha_180 :
  exists h1 h2 : R,
    headings ready [Some (10, -1, 0)%Z; Some (-1000, -1, 0)%Z] = [h1; h2] /\
    0 <= h1 < 360 /\ 0 <= h2 < 360 /\
    108 < arc h1 h2.
Proof.
  pose proof heading_of_first_sample as H1.
  pose proof heading_of_second_sample as H2.
  simpl headings.
  change (magnetometer_calculate_heading _ 10 (-1))
    with (magnetometer_calculate_heading ready 10 (-1)).
  change (magnetometer_calculate_heading _ (-1000) (-1))
    with (magnetometer_calculate_heading ready (-1000) (-1)).
  set (v1 := magnetometer_calculate_heading ready 10 (-1)) in *.
  set (v2 := magnetometer_calculate_heading ready (-1000) (-1)) in *.
  assert (Hf1 : low_pass 0 v1 = 144 + 6 / 10 * v1).
  { unfold low_pass, ALPHA. branch_R. }
  assert (Hf2 : low_pass (low_pass 0 v1) v2
                = 4 / 10 * low_pass 0 v1 + 6 / 10 * v2 + 216).
  { rewrite Hf1. unfold low_pass, ALPHA. branch_R. }
  eexists. eexists. split; [ reflexivity | ].
  rewrite Hf2, Hf1.
  split; [ lra | ]. split; [ lra | ].
  unfold arc, Rmin, Rabs.
  destruct (Rcase_abs _); destruct (Rle_dec _ _); lra.
Qed.

End HeadingFilterSlip.

(** ** Command parsing of bluetooth.c *)

Section CommandParsing.

Import Bluetooth.

Lemma Q2R_0 : Q2R 0 = 0.
Proof. unfold Q2R. simpl. lra. Qed.

Lemma between_spec (lo hi : R) (v : atof_value) :
  between lo hi v = true <->
  exists q, v = Finite q /\ lo <= Q2R q <= hi.
Proof.
  unfold between. split.
  - destruct v as [ q | | ]; try discriminate.
    destruct (Rle_dec lo (Q2R q)); [ | discriminate ].
    destruct (Rle_dec (Q2R q) hi); [ | discriminate ].
    intros _. exists q. auto.
  - intros (q & -> & Hlo & Hhi).
    destruct (Rle_dec lo (Q2R q)); [ | contradiction ].
    destruct (Rle_dec (Q2R q) hi); [ reflexivity | contradiction ].
Qed.

(** What the function checks: when it returns true, both converted
    values are finite and within the coordinate ranges. *)
Lemma bluetooth_parse_coordinates_in_range (command : string) :
  returns_true (bluetooth_parse_coordinates command) = true ->
  exists lat lng : Q,
    bluetooth_parse_coordinates command
    = Converted (Finite lat) (Finite lng) true /\
    -90 <= Q2R lat <= 90 /\ -180 <= Q2R lng <= 180.
Proof.
  destruct (bluetooth_parse_coordinates command) as [ | | lat lng ok ] eqn:E;
    simpl; try discriminate.
  intros ->.
  unfold bluetooth_parse_coordinates in E.
  destruct (strchr _ _) as [ lat_len | ]; [ | discriminate ].
  destruct (sizeof_str <=? lat_len)%nat; [ discriminate | ].
  destruct (sizeof_str <=? List.length _)%nat; [ discriminate | ].
  injection E as <- <- E.
  apply andb_true_iff in E. destruct E as [E1 E2].
  apply between_spec in E1. apply between_spec in E2.
  destruct E1 as (qlat & -> & Hlat). destruct E2 as (qlng & -> & Hlng).
  exists qlat, qlng. auto.
Qed.

(** C4 on the code.  The line "abc,def" has no numeric field, and
    [bluetooth_parse_coordinates] returns true on it with latitude 0
    and longitude 0; the loop takes it as a target command: the
    target (0, 0) is set and navigation is switched on. *)
Theorem bluetooth_parse_coordinates_accepts_text :
  numeric (list_ascii_of_string "abc") = false /\
  numeric (list_ascii_of_string "def") = false /\
  bluetooth_parse_coordinates "abc,def"
  = Converted (Finite 0) (Finite 0) true /\
  forall s : Wally.loop_state,
    Wally.process_command s (Wally.line_only "abc,def" 0)
    = Some (Wally.with_command s
              (Gps.gps_set_target (Wally.gps s) (Q2R 0) (Q2R 0))
              (Wally.motors s)
              (Pid.pid_reset (Wally.heading_pid s) 0)
              true,
            [Wally.BluetoothSend Wally.TargetEstablished]).
Proof.
  assert (Hlat : between (-90) 90 (Finite 0) = true).
  { apply between_spec. exists 0%Q. rewrite Q2R_0. split; [ reflexivity | lra ]. }
  assert (Hlng : between (-180) 180 (Finite 0) = true).
  { apply between_spec. exists 0%Q. rewrite Q2R_0. split; [ reflexivity | lra ]. }
  assert (Hparse : bluetooth_parse_coordinates "abc,def"
                   = Converted (Finite 0) (Finite 0) true).
  { unfold bluetooth_parse_coordinates. cbn -[between atof].
    replace (atof _) with (Finite 0) by reflexivity.
    replace (atof _) with (Finite 0) by reflexivity.
    now rewrite Hlat, Hlng. }
  split; [ reflexivity | ]. split; [ reflexivity | ].
  split; [ exact Hparse | ].
  intros s. unfold Wally.process_command, Wally.line_only.
  cbn -[bluetooth_parse_coordinates].
  rewrite Hparse. reflexivity.
Qed.

End CommandParsing.

(** ** The loop of WALLY_S.c *)

Section NavigationLoop.

Import Wally.

(** Reading the sensors touches the filtered heading and the current
    GPS record, nothing else. *)
Lemma read_sensors_frame (s : loop_state) (i : tick_input) :
  forall s0 heading gps_data,
    read_sensors s i = (s0, heading, gps_data) ->
    motors s0 = motors s /\ heading_pid s0 = heading_pid s /\
    navigation_active s0 = navigation_active s /\
    Gps.target_data (gps s0) = Gps.target_data (gps s) /\
    gps_data = Gps.current_gps_data (gps s0).
Proof.
  intros s0 heading gps_data. unfold read_sensors.
  destruct (Magnetometer.magnetometer_get_filtered_heading _ _) as [h m'].
  intros H. injection H as <- <- <-. simpl.
  repeat split; try reflexivity.
  unfold Gps.gps_update. destruct (negb _); reflexivity.
Qed.

(** The navigation step does nothing unless navigation is active, the
    fix is valid and a target is set. *)
Lemma navigate_guard (s : loop_state) (heading : R)
    (gps_data : Gps.gps_data_t) (now : Z) :
  navigation_active s = false \/ Gps.fix_valid gps_data = false \/
  Gps.gps_has_target (gps s) = false ->
  navigate s heading gps_data now = (s, []).
Proof.
  intros H. unfold navigate.
  destruct H as [H | [H | H]]; rewrite H;
    now rewrite ?andb_false_r.
Qed.

(** The report changes the pass counter only and drives no motor. *)
Lemma report_frame (s : loop_state) (heading : R)
    (gps_data : Gps.gps_data_t) :
  forall s' ev,
    report s heading gps_data = (s', ev) ->
    motors s' = motors s /\ heading_pid s' = heading_pid s /\
    navigation_active s' = navigation_active s /\ gps s' = gps s /\
    existsb is_motor_event ev = false.
Proof.
  intros s' ev. unfold report.
  destruct (_ >=? 20)%Z; intros H; injection H as <- <-; simpl; auto.
Qed.

(** The command STOP. *)
Lemma process_command_stop (s : loop_state) (i : tick_input) :
  bt_buffer i = "STOP"%string ->
  process_command s i
  = Some (with_command s (gps s) Motors.AllStopped (heading_pid s) false,
          [MotorsStopAll; BluetoothSend NavigationStopped]).
Proof.
  intros H. unfold process_command. rewrite H. reflexivity.
Qed.

(** A command after which navigation is active has not touched the
    motors. *)
Lemma process_command_active (s : loop_state) (i : tick_input) :
  forall s1 ev1,
    process_command s i = Some (s1, ev1) ->
    navigation_active s1 = true ->
    motors s1 = motors s /\ existsb is_motor_event ev1 = false.
Proof.
  intros s1 ev1. unfold process_command.
  destruct (0 <? _)%Z.
  - destruct (String.eqb _ _).
    + intros H. injection H as <- <-. simpl. discriminate.
    + destruct (Bluetooth.bluetooth_parse_coordinates _)
        as [ | | [ lat | | ] [ lng | | ] [ | ] ];
        try discriminate;
        intros H; injection H as <- <-; simpl; auto.
  - intros H. injection H as <- <-. simpl. auto.
Qed.

(** C1, as amended.  A pass that reads the line STOP ends with
    navigation inactive and the motors stopped; [motors_stop_all] is
    the first thing the pass does to its collaborators, followed by
    the notice to the operator, and no other motor command follows in
    the pass.  The target is not cleared: [target_data], and with it
    the answer of [gps_has_target], are what they were. *)
Theorem stop_command_halts_and_keeps_target
    (s : loop_state) (i : tick_input) :
  bt_buffer i = "STOP"%string ->
  exists s' rest,
    tick s i
    = Some (s', MotorsStopAll :: BluetoothSend NavigationStopped :: rest) /\
    existsb is_motor_event rest = false /\
    navigation_active s' = false /\
    motors s' = Motors.AllStopped /\
    Gps.target_data (gps s') = Gps.target_data (gps s) /\
    Gps.gps_has_target (gps s') = Gps.gps_has_target (gps s).
Proof.
  intros Hstop. unfold tick.
  destruct (read_sensors s i) as [[s0 heading] gps_data] eqn:Hread.
  destruct (read_sensors_frame s i _ _ _ Hread) as (_ & _ & _ & Htarget & _).
  rewrite (process_command_stop s0 i Hstop).
  rewrite navigate_guard by (left; reflexivity).
  destruct (report _ heading gps_data) as [s3 ev3] eqn:Hreport.
  destruct (report_frame _ _ _ _ _ Hreport) as (Hm & _ & Hn & Hg & Hev).
  exists s3, ev3. simpl in *.
  split; [ reflexivity | ]. split; [ exact Hev | ].
  split; [ exact Hn | ]. split; [ exact Hm | ].
  unfold Gps.gps_has_target. rewrite Hg, Htarget. auto.
Qed.

(** The hypothesis of C1 holds for a pass that receives the line STOP
    and nothing else. *)
Lemma stop_command_halts_and_keeps_target_witness :
  exists s' rest,
    tick (startup 0 0 0) (line_only "STOP" 1000)
    = Some (s', MotorsStopAll :: BluetoothSend NavigationStopped :: rest) /\
    navigation_active s' = false.
Proof.
  destruct (stop_command_halts_and_keeps_target
              (startup 0 0 0) (line_only "STOP" 1000) eq_refl)
    as (s' & rest & Ht & _ & Hn & _).
  exists s', rest. split; [ exact Ht | exact Hn ].
Defined.

End NavigationLoop.

Section NavigationLoopScenarios.

Import Wally.

Lemma Q2R_inject_Z (z : Z) : Q2R (inject_Z z) = IZR z.
Proof. unfold Q2R, inject_Z. simpl. field. Qed.

Lemma parse_10_20 :
  Bluetooth.bluetooth_parse_coordinates "10,20"
  = Bluetooth.Converted (Bluetooth.Finite 10) (Bluetooth.Finite 20) true.
Proof.
  unfold Bluetooth.bluetooth_parse_coordinates.
  cbn -[Bluetooth.between Bluetooth.atof].
  replace (Bluetooth.atof _) with (Bluetooth.Finite (inject_Z 10))
    by reflexivity.
  replace (Bluetooth.atof _) with (Bluetooth.Finite (inject_Z 20))
    by reflexivity.
  assert (H1 : Bluetooth.between (-90) 90 (Bluetooth.Finite (inject_Z 10))
               = true).
  { apply between_spec. eexists. split; [ reflexivity | ].
    rewrite Q2R_inject_Z. lra. }
  assert (H2 : Bluetooth.between (-180) 180
                 (Bluetooth.Finite (inject_Z 20)) = true).
  { apply between_spec. eexists. split; [ reflexivity | ].
    rewrite Q2R_inject_Z. lra. }
  rewrite H1, H2. reflexivity.
Qed.

(** The state the loop is in after the line "10,20" was received on
    entry: navigation active towards the target (10, 20). *)
Lemma tick_sets_target :
  exists s1 ev1,
    tick (startup 0 0 0) (line_only "10,20" 1000) = Some (s1, ev1) /\
    navigation_active s1 = true /\
    Gps.target_data (gps s1)
    = Gps.mk_target (Q2R 10) (Q2R 20) true.
Proof.
  unfold tick.
  destruct (read_sensors _ _) as [[s0 heading] gps_data] eqn:Hread.
  injection Hread as <- <- <-.
  unfold process_command, line_only.
  cbn -[Bluetooth.bluetooth_parse_coordinates navigate report
        Magnetometer.magnetometer_get_filtered_heading].
  rewrite parse_10_20.
  rewrite navigate_guard by (right; left; reflexivity).
  destruct (report _ _ _) as [s3 ev3] eqn:Hreport.
  destruct (report_frame _ _ _ _ _ Hreport) as (_ & _ & Hn & Hg & _).
  exists s3, ([BluetoothSend TargetEstablished] ++ [] ++ ev3).
  split; [ reflexivity | ]. rewrite Hn, Hg. split; reflexivity.
Qed.

(** C1, as stated, fails on the target: after the line "10,20" sets a
    target and the line STOP is processed in the pass that follows,
    navigation is inactive and [gps_has_target] still answers true. *)
Lemma stop_command_leaves_target_set :
  exists s1 ev1 s2 ev2,
    tick (startup 0 0 0) (line_only "10,20" 1000) = Some (s1, ev1) /\
    tick s1 (line_only "STOP" 51000) = Some (s2, ev2) /\
    navigation_active s2 = false /\
    Gps.gps_has_target (gps s2) = true.
Proof.
  destruct tick_sets_target as (s1 & ev1 & Ht1 & _ & Htarget).
  exists s1, ev1.
  unfold tick.
  destruct (read_sensors s1 _) as [[s0 heading] gps_data] eqn:Hread.
  destruct (read_sensors_frame _ _ _ _ _ Hread) as (_ & _ & _ & Hkeep & _).
  rewrite (process_command_stop s0 (line_only "STOP" 51000) eq_refl).
  rewrite navigate_guard by (left; reflexivity).
  destruct (report _ heading gps_data) as [s3 ev3] eqn:Hreport.
  destruct (report_frame _ _ _ _ _ Hreport) as (_ & _ & Hn & Hg & _).
  exists s3, ([MotorsStopAll; BluetoothSend NavigationStopped] ++ [] ++ ev3).
  split; [ exact Ht1 | ]. split; [ reflexivity | ].
  split; [ rewrite Hn; reflexivity | ].
  unfold Gps.gps_has_target. rewrite Hg. simpl gps.
  rewrite Hkeep, Htarget. reflexivity.
Qed.

(** C5.  In a pass whose GPS snapshot has no valid fix and in which
    navigation is active once the command of the pass, if any, has
    been processed, the navigation step does nothing: the pass emits
    no motor command, the command in effect after the pass is the one
    in effect before it, and the heading controller and the GPS module
    are as the command left them; without a command the controller is
    the one of the pass before. *)
Theorem tick_without_fix_holds_motor_command
    (s : loop_state) (i : tick_input)
    (s0 : loop_state) (heading : R) (gps_data : Gps.gps_data_t)
    (s1 : loop_state) (ev1 : list event) :
  read_sensors s i = (s0, heading, gps_data) ->
  Gps.fix_valid gps_data = false ->
  process_command s0 i = Some (s1, ev1) ->
  navigation_active s1 = true ->
  navigate s1 heading gps_data (clock_at_compute i) = (s1, []) /\
  exists s' evs,
    tick s i = Some (s', evs) /\
    existsb is_motor_event evs = false /\
    motors s' = motors s /\
    heading_pid s' = heading_pid s1 /\
    gps s' = gps s1 /\
    navigation_active s' = true /\
    (bt_buffer i = EmptyString -> heading_pid s' = heading_pid s).
Proof.
  intros Hread Hfix Hcmd Hactive.
  assert (Hnav : navigate s1 heading gps_data (clock_at_compute i) = (s1, []))
    by (apply navigate_guard; auto).
  split; [ exact Hnav | ].
  destruct (read_sensors_frame s i _ _ _ Hread) as (Hm0 & Hp0 & _).
  destruct (process_command_active s0 i _ _ Hcmd Hactive) as (Hm1 & Hev1).
  unfold tick. rewrite Hread, Hcmd, Hnav.
  destruct (report s1 heading gps_data) as [s3 ev3] eqn:Hreport.
  destruct (report_frame _ _ _ _ _ Hreport) as (Hm & Hp & Hn & Hg & Hev).
  exists s3, (ev1 ++ [] ++ ev3).
  split; [ reflexivity | ].
  split; [ simpl; rewrite existsb_app, Hev1, Hev; reflexivity | ].
  split; [ congruence | ]. split; [ exact Hp | ].
  split; [ exact Hg | ]. split; [ congruence | ].
  intros Hempty. unfold process_command in Hcmd. rewrite Hempty in Hcmd.
  simpl in Hcmd. injection Hcmd as <- _. congruence.
Qed.

(** The hypotheses of C5 hold for the loop under way in a pass in
    which the fix is lost: the motors keep their forward command. *)
Lemma tick_without_fix_holds_motor_command_witness :
  exists s' evs,
    tick cruising (fix_lost 100000) = Some (s', evs) /\
    existsb is_motor_event evs = false /\
    motors s' = Motors.Drive Motors.MOTOR_FORWARD 180
                             Motors.MOTOR_FORWARD 190.
Proof.
  destruct (read_sensors cruising (fix_lost 100000))
    as [[s0 heading] gps_data] eqn:Hread.
  assert (Hs0 : s0 = fst (fst (read_sensors cruising (fix_lost 100000))))
    by now rewrite Hread.
  assert (Hg : gps_data = snd (read_sensors cruising (fix_lost 100000)))
    by now rewrite Hread.
  destruct (tick_without_fix_holds_motor_command
              cruising (fix_lost 100000) s0 heading gps_data s0 [] Hread)
    as (_ & s' & evs & Ht & Hev & Hm & _).
  - rewrite Hg. reflexivity.
  - rewrite Hs0. reflexivity.
  - rewrite Hs0. reflexivity.
  - exists s', evs. split; [ exact Ht | ]. split; [ exact Hev | ].
    rewrite Hm. reflexivity.
Defined.

End NavigationLoopScenarios.


(* ================================================================== *)
(** * Part III.  Further properties of the sources                     *)
(* ================================================================== *)

(** ** Saturation and integral memory of pid.c *)

Section ControllerSaturation.

Import Pid.

(** X1.  Past its guard, [pid_compute] returns a value within the
    output limits of the controller, whatever the gains, the set point
    and the input are. *)
Theorem pid_compute_output_within_limits
    (pid : pid_controller_t) (input : R) (now : Z) :
  initialized pid = true ->
  0 < elapsed_seconds now (last_time pid) ->
  output_min pid <= output_max pid ->
  output_min pid <= fst (pid_compute pid input now) <= output_max pid.
Proof.
  intros Hi Hdt Hlim. unfold pid_compute. rewrite Hi. simpl.
  destruct (Rle_dec _ 0) as [Hle | _]; [ lra | ].
  destruct (Rgt_dec _ _); [ | destruct (Rlt_dec _ _) ]; simpl; lra.
Qed.

Lemma pid_compute_output_within_limits_witness :
  output_min step_response <= fst (pid_compute step_response 0 50000)
  <= output_max step_response.
Proof.
  apply (pid_compute_output_within_limits step_response 0 50000).
  - reflexivity.
  - simpl. rewrite elapsed_seconds_50ms. lra.
  - simpl. lra.
Defined.



(** X3.  No operation of pid.c touches a controller that [pid_init]
    has not initialised, and [pid_compute] returns 0 on it. *)
Theorem pid_uninitialized_is_inert (pid : pid_controller_t) :
  initialized pid = false ->
  forall (x y z : R) (t : Z),
    pid_set_setpoint pid x = pid /\
    pid_compute pid x t = (0, pid) /\
    pid_reset pid t = pid /\
    pid_tune pid t x y z = pid /\
    pid_set_output_limits pid x y = pid.
Proof.
  intros Hi x y z t.
  unfold pid_set_setpoint, pid_compute, pid_reset, pid_tune,
    pid_set_output_limits.
  rewrite Hi. simpl. auto.
Qed.

Lemma pid_uninitialized_is_inert_witness :
  pid_compute zeroed 10 50000 = (0, zeroed) /\ pid_reset zeroed 7 = zeroed.
Proof.
  destruct (pid_uninitialized_is_inert zeroed eq_refl 10 0 0 50000)
    as (_ & Hc & _).
  destruct (pid_uninitialized_is_inert zeroed eq_refl 0 0 0 7)
    as (_ & _ & Hr & _).
  split; [ exact Hc | exact Hr ].
Defined.

(** X4.  With a positive integral gain and limits in order,
    [pid_set_output_limits] leaves an integral whose term
    [ki * integral_sum] lies within the new limits, and does not move
    an integral whose term already did. *)
Theorem pid_set_output_limits_bounds_integral
    (pid : pid_controller_t) (omin omax : R) :
  initialized pid = true ->
  0 < ki pid ->
  omin <= omax ->
  let pid' := pid_set_output_limits pid omin omax in
  output_min pid' = omin /\ output_max pid' = omax /\
  omin <= ki pid' * integral_sum pid' <= omax /\
  (omin <= ki pid * integral_sum pid <= omax ->
   integral_sum pid' = integral_sum pid).
Proof.
  intros Hi Hki Hlim. unfold pid_set_output_limits. rewrite Hi. simpl.
  destruct (Req_dec_T (ki pid) 0) as [H0 | Hne]; [ lra | ].
  assert (Hmax : ki pid * (omax / ki pid) = omax) by (field; exact Hne).
  assert (Hmin : ki pid * (omin / ki pid) = omin) by (field; exact Hne).
  split; [ reflexivity | ]. split; [ reflexivity | ].
  destruct (Rgt_dec (integral_sum pid) (omax / ki pid)) as [Hgt | Hngt].
  - split; [ lra | ]. intros Hin. exfalso.
    apply (Rmult_lt_compat_l (ki pid)) in Hgt; [ lra | exact Hki ].
  - apply Rnot_gt_le in Hngt.
    apply (Rmult_le_compat_l (ki pid)) in Hngt; [ | lra ].
    destruct (Rlt_dec (integral_sum pid) (omin / ki pid)) as [Hlt | Hnlt].
    + split; [ lra | ]. intros Hin. exfalso.
      apply (Rmult_lt_compat_l (ki pid)) in Hlt; [ lra | exact Hki ].
    + apply Rnot_lt_le in Hnlt.
      apply (Rmult_le_compat_l (ki pid)) in Hnlt; [ | lra ].
      split; [ lra | reflexivity ].
Qed.

Lemma pid_set_output_limits_bounds_integral_witness :
  -10 <= ki (pid_set_output_limits step_response (-10) 10)
         * integral_sum (pid_set_output_limits step_response (-10) 10)
  <= 10.
Proof.
  destruct (pid_set_output_limits_bounds_integral step_response (-10) 10)
    as (_ & _ & H & _).
  - reflexivity.
  - simpl. lra.
  - lra.
  - exact H.
Defined.

(** X5.  [pid_tune] followed by [pid_compute]: the new gains act on a
    controller without memory.  The integral restarts from zero and the
    derivative is taken against a last input of zero, while set point
    and limits are the ones from before the tuning. *)
Theorem pid_compute_after_tune
    (pid : pid_controller_t) (kp' ki' kd' input : R) (t0 t1 : Z) :
  initialized pid = true ->
  0 < elapsed_seconds t1 t0 ->
  let dt := elapsed_seconds t1 t0 in
  let error := setpoint pid - input in
  let raw := kp' * error + ki' * (error * dt) - kd' * input / dt in
  output_min pid <= raw <= output_max pid ->
  let r := pid_compute (pid_tune pid t0 kp' ki' kd') input t1 in
  fst r = raw /\
  integral_sum (snd r) = error * dt /\
  last_input (snd r) = input /\
  setpoint (snd r) = setpoint pid /\
  output_min (snd r) = output_min pid /\
  output_max (snd r) = output_max pid.
Proof.
  intros Hi Hdt dt error raw Hraw.
  unfold pid_tune, pid_reset, pid_compute.
  repeat (rewrite Hi; simpl). fold dt. fold error.
  destruct (Rle_dec dt 0) as [Hle | _]; [ unfold dt in Hle; lra | ].
  replace (0 + error * dt) with (error * dt) by ring.
  replace (input - 0) with input by ring. fold raw.
  destruct (Rgt_dec raw (output_max pid)) as [H | _]; [ lra | ].
  destruct (Rlt_dec raw (output_min pid)) as [H | _]; [ lra | ].
  simpl. auto 10.
Qed.

Lemma pid_compute_after_tune_witness :
  fst (pid_compute (pid_tune step_response 0 1 0 0) 80 50000) = 10.
Proof.
  destruct (pid_compute_after_tune step_response 1 0 0 80 0 50000)
    as (H & _).
  - reflexivity.
  - rewrite elapsed_seconds_50ms. lra.
  - simpl. rewrite elapsed_seconds_50ms. lra.
  - rewrite H. simpl. rewrite elapsed_seconds_50ms. field.
Defined.

End ControllerSaturation.

(** ** Whole turns in the heading error of pid.c *)

Section HeadingErrorTurns.

Import Pid.

(** What the first loop returns, when it returns. *)
Lemma while_above_180_result (n : nat) :
  forall e r : R,
    while_above_180 n e = Some r ->
    r <= 180 /\ (e <= 180 -> r = e) /\ (180 < e -> -180 < r) /\
    exists k : Z, (0 <= k)%Z /\ r = e - 360 * IZR k.
Proof.
  induction n as [ | n IH ]; intros e r; simpl;
    destruct (Rgt_dec e 180) as [Hgt | Hle]; try discriminate.
  - intros H. injection H as <-.
    repeat split; try lra. exists 0%Z. split; [ lia | lra ].
  - intros H. destruct (IH _ _ H) as (Hr & Hsame & Hlow & k & Hk & Hrk).
    split; [ exact Hr | ]. split; [ lra | ]. split.
    + intros _. destruct (Rle_or_lt (e - 360) 180) as [Hs | Hs].
      * rewrite (Hsame Hs). lra.
      * auto.
    + exists (k + 1)%Z. split; [ lia | ]. rewrite plus_IZR. lra.
  - intros H. injection H as <-.
    repeat split; try lra. exists 0%Z. split; [ lia | lra ].
Qed.

Lemma while_below_minus_180_result (n : nat) (e r : R) :
  while_below_minus_180 n e = Some r ->
  -180 <= r /\ (-180 <= e -> r = e) /\ (e < -180 -> r < 180) /\
  exists k : Z, (0 <= k)%Z /\ r = e + 360 * IZR k.
Proof.
  rewrite <- (Ropp_involutive e) at 1. rewrite while_below_mirror.
  destruct (while_above_180 n (- e)) as [ r' | ] eqn:Hr'; [ | discriminate ].
  simpl. intros H. injection H as <-.
  destruct (while_above_180_result n _ _ Hr')
    as (Hr & Hsame & Hlow & k & Hk & Hrk).
  split; [ lra | ]. split; [ intros; rewrite Hsame; lra | ].
  split; [ intros He; assert (180 < - e) by lra; specialize (Hlow H); lra | ].
  exists k. split; [ exact Hk | lra ].
Qed.

(** X6.  Whatever number of iterations is allowed, a value returned by
    [pid_heading_error] is the plain difference [setpoint - input]
    shifted by a whole number of turns into [-180, 180]; a difference
    already in that interval is returned unchanged. *)
Theorem pid_heading_error_whole_turns (fuel : nat) (sp input r : R) :
  pid_heading_error fuel sp input = Some r ->
  -180 <= r <= 180 /\
  (exists k : Z, r = sp - input - 360 * IZR k) /\
  (-180 <= sp - input <= 180 -> r = sp - input).
Proof.
  unfold pid_heading_error.
  destruct (while_above_180 fuel (sp - input)) as [ r1 | ] eqn:H1;
    [ | discriminate ].
  intros H2.
  destruct (while_above_180_result _ _ _ H1)
    as (Hr1 & Hsame1 & Hlow1 & k1 & Hk1 & Hrk1).
  destruct (while_below_minus_180_result _ _ _ H2)
    as (Hr & Hsame & Hlow & k2 & Hk2 & Hrk2).
  split; [ | split ].
  - split; [ exact Hr | ].
    destruct (Rle_or_lt (-180) r1) as [Hs | Hs].
    + rewrite (Hsame Hs). exact Hr1.
    + specialize (Hlow Hs). lra.
  - exists (k1 - k2)%Z. rewrite minus_IZR. lra.
  - intros [Hlo Hhi]. rewrite Hsame; rewrite Hsame1; lra.
Qed.

Lemma pid_heading_error_whole_turns_witness :
  -180 <= 20 <= 180 /\ exists k : Z, 20 = 10 - 350 - 360 * IZR k.
Proof.
  destruct (pid_heading_error_whole_turns 1 10 350 20) as (H & Hk & _).
  - unfold pid_heading_error. simpl.
    destruct (Rgt_dec (10 - 350) 180) as [Hc | _]; [ lra | ].
    destruct (Rlt_dec (10 - 350) (-180)) as [_ | Hc]; [ | lra ].
    destruct (Rlt_dec (10 - 350 + 360) (-180)) as [Hc | _]; [ lra | ].
    f_equal. lra.
  - split; [ exact H | exact Hk ].
Defined.

End HeadingErrorTurns.

(** ** Ranges and special directions of gps.c *)

Section GeodesyRanges.

Import Gps.

Lemma atan2_first_quadrant (y x : R) :
  0 <= y -> 0 <= x -> 0 <= C.atan2 y x <= PI / 2.
Proof.
  intros Hy Hx. pose proof PI_RGT_0 as Hpi. unfold C.atan2.
  destruct (Rlt_dec 0 x) as [Hx0 | Hx0].
  - destruct (atan_bound (y / x)) as [_ Hu].
    assert (Hq : 0 <= y / x).
    { assert (Hi : 0 < / x) by now apply Rinv_0_lt_compat.
      unfold Rdiv. nra. }
    destruct Hq as [Hq | Hq].
    + pose proof (atan_positive _ Hq). lra.
    + rewrite <- Hq, atan_0. lra.
  - destruct (Rlt_dec x 0) as [Hx1 | _]; [ lra | ].
    destruct (Rlt_dec 0 y); [ lra | ].
    destruct (Rlt_dec y 0); lra.
Qed.

(** X7.  [gps_bearing_to_target] always answers a bearing between 0
    and 360, with or without fix and target.  The upper bound is
    closed: the sum [bearing + 360] that maps a negative bearing into
    the range can round to 360. *)
Theorem gps_bearing_in_range (g : gps_module) :
  0 <= gps_bearing_to_target g <= 360.
Proof.
  unfold gps_bearing_to_target.
  destruct (negb _ || negb _); [ lra | ].
  set (y := sin _ * cos _). set (x := cos _ * sin _ - _).
  pose proof (atan2_range y x) as Ha. pose proof PI_RGT_0 as Hpi.
  set (a := C.atan2 y x) in *.
  assert (Hb : a * 180 / PI * PI = a * 180) by (field; lra).
  set (b := a * 180 / PI) in *.
  assert (Hrange : -180 <= b <= 180) by (split; nra).
  destruct (Rlt_dec b 0); lra.
Qed.

(** The distance for a haversine term that is the squared sine of half
    an angle of at most a half turn: radius times the angle. *)
Lemma haversine_of_half_angle (lat1 lng1 lat2 lng2 h : R) :
  - (PI / 2) <= h <= PI / 2 ->
  haversine_a lat1 lng1 lat2 lng2 = sin h * sin h ->
  haversine lat1 lng1 lat2 lng2 = 6371000 * (2 * Rabs h).
Proof.
  intros Hh Ha. unfold haversine. rewrite Ha.
  pose proof PI_RGT_0 as Hpi.
  assert (Hs : sqrt (sin h * sin h) = sin (Rabs h)).
  { change (sin h * sin h) with (Rsqr (sin h)). rewrite sqrt_Rsqr_abs.
    unfold Rabs at 2. destruct (Rcase_abs h) as [Hneg | Hpos].
    - rewrite sin_neg. apply Rabs_left.
      apply sin_lt_0_var; lra.
    - apply Rabs_right. apply Rle_ge. apply sin_ge_0; lra. }
  assert (Hc : sqrt (1 - sin h * sin h) = cos (Rabs h)).
  { replace (1 - sin h * sin h) with (Rsqr (cos h))
      by (unfold Rsqr; pose proof (sin2_cos2 h) as E; unfold Rsqr in E; lra).
    rewrite sqrt_Rsqr_abs.
    rewrite Rabs_right by (apply Rle_ge, cos_ge_0; lra).
    unfold Rabs. destruct (Rcase_abs h); [ now rewrite cos_neg | reflexivity ]. }
  rewrite Hs, Hc.
  assert (Hg : 0 <= Rabs h <= PI / 2).
  { split; [ apply Rabs_pos | ].
    unfold Rabs. destruct (Rcase_abs h); lra. }
  set (g := Rabs h) in *.
  f_equal. f_equal. unfold C.atan2.
  destruct (Rle_lt_or_eq_dec g (PI / 2) (proj2 Hg)) as [Hlt | Heq].
  - assert (Hcos : 0 < cos g) by (apply cos_gt_0; lra).
    destruct (Rlt_dec 0 (cos g)) as [_ | Hn]; [ | contradiction ].
    change (sin g / cos g) with (tan g). apply atan_tan. lra.
  - rewrite Heq, sin_PI2, cos_PI2.
    destruct (Rlt_dec 0 0) as [Hn | _]; [ lra | ].
    destruct (Rlt_dec 0 1) as [_ | Hn]; [ reflexivity | lra ].
Qed.

Lemma Rabs_within (x a : R) : Rabs x <= a -> - a <= x <= a.
Proof. unfold Rabs. destruct (Rcase_abs x); lra. Qed.

Lemma sin_sqr_quarter (x : R) :
  - (PI / 4) <= x <= PI / 4 -> sin x * sin x <= 1 / 2.
Proof.
  intros Hx.
  assert (Hc : 0 <= cos (2 * x)) by (apply cos_ge_0; lra).
  rewrite cos_2a_sin in Hc. lra.
Qed.

(** For two points at most a quarter turn apart in latitude and in
    longitude the haversine term stays away from 1. *)
Lemma haversine_a_quarter (lat1 lng1 lat2 lng2 : R) :
  Rabs (lat2 - lat1) <= 90 -> Rabs (lng2 - lng1) <= 90 ->
  haversine_a lat1 lng1 lat2 lng2 <= 3 / 4.
Proof.
  intros Hlat Hlng. apply Rabs_within in Hlat. apply Rabs_within in Hlng.
  pose proof PI_RGT_0 as Hpi. unfold haversine_a.
  set (p1 := lat1 * PI / 180). set (p2 := lat2 * PI / 180).
  set (dl := (lng2 - lng1) * PI / 180 / 2).
  replace ((lat2 - lat1) * PI / 180 / 2) with ((p2 - p1) / 2)
    by (unfold p1, p2; field).
  assert (Hs : sin ((p2 - p1) / 2) * sin ((p2 - p1) / 2) <= 1 / 2).
  { apply sin_sqr_quarter. unfold p1, p2. split; nra. }
  assert (Hq : sin dl * sin dl <= 1 / 2).
  { apply sin_sqr_quarter. unfold dl. split; nra. }
  assert (Hhalf : sin ((p2 - p1) / 2) * sin ((p2 - p1) / 2)
                  = (1 - cos (p2 - p1)) / 2).
  { replace (p2 - p1) with (2 * ((p2 - p1) / 2)) at 3 by field.
    rewrite cos_2a_sin. field. }
  assert (Hprod : cos p1 * cos p2
                  <= 1 - sin ((p2 - p1) / 2) * sin ((p2 - p1) / 2)).
  { rewrite Hhalf, cos_minus.
    pose proof (COS_bound (p1 + p2)) as [_ Hb]. rewrite cos_plus in Hb.
    lra. }
  set (s := sin ((p2 - p1) / 2) * sin ((p2 - p1) / 2)) in *.
  assert (Hs0 : 0 <= s) by (unfold s; nra).
  assert (Hq0 : 0 <= sin dl * sin dl) by nra.
  set (q := sin dl * sin dl) in *.
  replace (cos p1 * cos p2 * sin dl * sin dl) with (cos p1 * cos p2 * q)
    by (unfold q; ring).
  nra.
Qed.

Lemma atan_sqrt_3 : atan (sqrt 3) = PI / 3.
Proof.
  rewrite <- tan_PI3. apply atan_tan.
  pose proof PI_RGT_0. lra.
Qed.

(** X8.  Between a position and a target at most 90 degrees apart in
    latitude and at most 90 degrees apart in longitude, the haversine
    term is at most 3/4, well below the value 1 at which the second
    square root of the formula vanishes, and [gps_distance_to_target]
    lies between 0 and a third of the circumference of the sphere of
    radius 6371000 m. *)
Theorem gps_distance_in_range (lat1 lng1 lat2 lng2 : R) :
  Rabs (lat2 - lat1) <= 90 -> Rabs (lng2 - lng1) <= 90 ->
  0 <= haversine_a lat1 lng1 lat2 lng2 <= 3 / 4 /\
  0 <= gps_distance_to_target (fixed_at lat1 lng1 lat2 lng2)
    <= 6371000 * (2 * PI / 3).
Proof.
  intros Hlat Hlng. pose proof PI_RGT_0 as Hpi.
  rewrite gps_distance_with_fix by reflexivity.
  cbn [fixed_at current_gps_data target_data latitude longitude
       target_latitude target_longitude].
  unfold haversine.
  pose proof (haversine_a_quarter lat1 lng1 lat2 lng2 Hlat Hlng) as Hup.
  pose proof (haversine_a_range lat1 lng1 lat2 lng2) as [Hlow _].
  set (a := haversine_a lat1 lng1 lat2 lng2) in *.
  split; [ lra | ].
  pose proof (atan2_first_quadrant (sqrt a) (sqrt (1 - a))
                (sqrt_pos _) (sqrt_pos _)) as [H0 _].
  split; [ lra | ].
  assert (Hden : 0 < sqrt (1 - a)) by (apply sqrt_lt_R0; lra).
  unfold C.atan2. destruct (Rlt_dec 0 (sqrt (1 - a))) as [_ | H]; [ | lra ].
  assert (Hq : sqrt a / sqrt (1 - a) <= sqrt 3).
  { rewrite <- sqrt_div_alt by lra. apply sqrt_le_1_alt.
    apply Rmult_le_reg_r with (1 - a); [ lra | ].
    unfold Rdiv. rewrite Rmult_assoc, Rinv_l by lra. lra. }
  assert (Hat : atan (sqrt a / sqrt (1 - a)) <= PI / 3).
  { rewrite <- atan_sqrt_3. destruct Hq as [Hq | Hq].
    - left. now apply atan_increasing.
    - rewrite Hq. lra. }
  lra.
Qed.

(** The property of X8 from (-45, 0) to (45, 90), where the two
    differences are 90 degrees. *)
Lemma gps_distance_in_range_witness :
  0 <= gps_distance_to_target (fixed_at (-45) 0 45 90)
    <= 6371000 * (2 * PI / 3).
Proof.
  apply (gps_distance_in_range (-45) 0 45 90);
    rewrite Rabs_right; lra.
Defined.

(** X9.  Along a meridian (position and target at the same longitude)
    and along the equator (both latitudes zero), for two points at most
    180 degrees apart, the distance computed is the radius 6371000 m
    times the angle between the two points in radians. *)
Theorem gps_distance_along_meridian_and_equator (u v w : R) :
  (Rabs (v - u) <= 180 ->
   gps_distance_to_target (fixed_at u w v w)
   = 6371000 * (Rabs (v - u) * PI / 180)) /\
  (Rabs (v - u) <= 180 ->
   gps_distance_to_target (fixed_at 0 u 0 v)
   = 6371000 * (Rabs (v - u) * PI / 180)).
Proof.
  pose proof PI_RGT_0 as Hpi.
  assert (Habs : forall k, 0 < k -> Rabs ((v - u) * PI / k)
                                    = Rabs (v - u) * PI / k).
  { intros k Hk. unfold Rdiv. rewrite !Rabs_mult.
    rewrite (Rabs_right PI) by lra.
    rewrite (Rabs_right (/ k)); [ reflexivity | ].
    apply Rle_ge. left. now apply Rinv_0_lt_compat. }
  split; intros Hd.
  - rewrite gps_distance_with_fix by reflexivity. simpl.
    rewrite (haversine_of_half_angle u w v w ((v - u) * PI / 180 / 2)).
    + replace ((v - u) * PI / 180 / 2) with ((v - u) * PI / 360) by field.
      rewrite Habs by lra. f_equal. field.
    + replace ((v - u) * PI / 180 / 2) with ((v - u) * PI / 360) by field.
      apply Rabs_within. rewrite Habs by lra. nra.
    + unfold haversine_a.
      replace ((w - w) * PI / 180 / 2) with 0 by field.
      rewrite sin_0. ring.
  - rewrite gps_distance_with_fix by reflexivity. simpl.
    rewrite (haversine_of_half_angle 0 u 0 v ((v - u) * PI / 180 / 2)).
    + replace ((v - u) * PI / 180 / 2) with ((v - u) * PI / 360) by field.
      rewrite Habs by lra. f_equal. field.
    + replace ((v - u) * PI / 180 / 2) with ((v - u) * PI / 360) by field.
      apply Rabs_within. rewrite Habs by lra. nra.
    + unfold haversine_a.
      replace ((0 - 0) * PI / 180 / 2) with 0 by field.
      replace (0 * PI / 180) with 0 by field.
      rewrite sin_0, cos_0. ring.
Qed.

(** The properties of X9 at the scenario of the distance test: from
    (0, 0) to (0, 0.0001) the distance is 6371000 * 0.0001 * PI / 180
    metres, about 11.1 m. *)
Lemma gps_distance_along_meridian_and_equator_witness :
  gps_distance_to_target (fixed_at 0 0 0 (1 / 10000))
  = 6371000 * (Rabs (1 / 10000 - 0) * PI / 180).
Proof.
  apply (proj2 (gps_distance_along_meridian_and_equator 0 (1 / 10000) 0)).
  rewrite Rabs_right; lra.
Defined.



End GeodesyRanges.

(** ** The low-pass step of magnetometer.c on proper headings *)

Section HeadingFilterArc.

Import Magnetometer.

(** X11.  On a sample that is a heading between 0 and 360 the filter
    moves the filtered heading, itself between 0 and 360, along the
    shorter arc towards the sample, by six tenths of that arc: the new
    heading is between 0 and 360 again, at 0.6 of the arc from the old
    one and at 0.4 of the arc from the sample, across the 0/360 seam as
    well.  Both ends of the range are included, 360 being what the last
    sum of the filter can round to. *)
Theorem low_pass_moves_along_shorter_arc (filtered new_heading : R) :
  0 <= filtered <= 360 ->
  0 <= new_heading <= 360 ->
  let f' := low_pass filtered new_heading in
  0 <= f' <= 360 /\
  arc filtered f' = 6 / 10 * arc filtered new_heading /\
  arc f' new_heading = 4 / 10 * arc filtered new_heading.
Proof.
  intros Hf Hn f'.
  assert (H : exists d,
             -180 <= d <= 180 /\
             (d = new_heading - filtered \/ d = new_heading - filtered - 360
              \/ d = new_heading - filtered + 360) /\
             (f' = filtered + 6 / 10 * d \/
              f' = filtered + 6 / 10 * d + 360 \/
              f' = filtered + 6 / 10 * d - 360) /\
             0 <= f' < 360).
  { unfold f', low_pass, ALPHA.
    destruct (Rgt_dec (new_heading - filtered) 180);
      [ exists (new_heading - filtered - 360)
      | destruct (Rlt_dec (new_heading - filtered) (-180));
        [ exists (new_heading - filtered + 360)
        | exists (new_heading - filtered) ] ];
      (split; [ lra | ]); (split; [ lra | ]); branch_R. }
  destruct H as (d & Hd & Hdd & Hf' & Hrange).
  split; [ lra | ].
  assert (Harc : arc filtered new_heading = Rabs d).
  { unfold arc, Rmin. destruct (Rle_dec _ _); unfold Rabs in *;
      destruct (Rcase_abs (filtered - new_heading));
      destruct (Rcase_abs d); lra. }
  rewrite Harc. clearbody f'. split.
  - unfold arc, Rmin. destruct (Rle_dec _ _); unfold Rabs in *;
      destruct (Rcase_abs (filtered - f'));
      destruct (Rcase_abs d); lra.
  - unfold arc, Rmin. destruct (Rle_dec _ _); unfold Rabs in *;
      destruct (Rcase_abs (f' - new_heading));
      destruct (Rcase_abs d); lra.
Qed.

Lemma low_pass_moves_along_shorter_arc_witness :
  arc (low_pass 350 10) 10 = 4 / 10 * arc 350 10.
Proof.
  destruct (low_pass_moves_along_shorter_arc 350 10) as (_ & _ & H);
    [ lra | lra | exact H ].
Defined.

End HeadingFilterArc.

(** ** The outcome of bluetooth_parse_coordinates by the shape of the line *)

Section CommandShape.

Import Bluetooth.

Lemma strchr_absent (s : list ascii) (c : ascii) :
  ~ In c s -> strchr s c = None.
Proof.
  induction s as [ | a s IH ]; intros Hc; simpl; [ reflexivity | ].
  destruct (Ascii.eqb_spec a c) as [ -> | Hne ].
  - exfalso. apply Hc. now left.
  - rewrite IH; [ reflexivity | ]. intros Hin. apply Hc. now right.
Qed.

Lemma strchr_first (field rest : list ascii) (c : ascii) :
  ~ In c field -> strchr (field ++ c :: rest) c = Some (List.length field).
Proof.
  induction field as [ | a field IH ]; intros Hc; simpl.
  - now rewrite Ascii.eqb_refl.
  - destruct (Ascii.eqb_spec a c) as [ -> | Hne ].
    + exfalso. apply Hc. now left.
    + rewrite IH; [ reflexivity | ]. intros Hin. apply Hc. now right.
Qed.

(** X12.  What [bluetooth_parse_coordinates] does with a line is
    decided by its first comma.  A line without comma is refused.  For
    a line [field , rest], where [field] has no comma: a field of 32
    characters or more is refused; otherwise a rest of 32 characters or
    more overruns the 32 bytes of [lng_str]; otherwise the two texts
    are converted by [atof], anything after the number in each being
    ignored, and the answer is the range test on the two values. *)
Theorem bluetooth_parse_coordinates_by_shape :
  (forall command : string,
     ~ In ","%char (list_ascii_of_string command) ->
     bluetooth_parse_coordinates command = Refused) /\
  (forall field rest : list ascii,
     ~ In ","%char field ->
     let o := bluetooth_parse_coordinates
                (string_of_list_ascii (field ++ ","%char :: rest)) in
     ((32 <= List.length field)%nat -> o = Refused) /\
     ((List.length field < 32)%nat -> (32 <= List.length rest)%nat ->
      o = Overrun) /\
     ((List.length field < 32)%nat -> (List.length rest < 32)%nat ->
      o = Converted (atof field) (atof rest)
            (between (-90) 90 (atof field)
             && between (-180) 180 (atof rest)))).
Proof.
  split.
  - intros command Hc. unfold bluetooth_parse_coordinates.
    now rewrite strchr_absent.
  - intros field rest Hc o. unfold o, bluetooth_parse_coordinates.
    rewrite list_ascii_of_string_of_list_ascii.
    rewrite (strchr_first field rest _ Hc).
    assert (Hfirst : firstn (List.length field) (field ++ ","%char :: rest)
                     = field).
    { rewrite firstn_app, Nat.sub_diag, firstn_all. simpl.
      apply app_nil_r. }
    assert (Hskip : skipn (S (List.length field))
                      (field ++ ","%char :: rest) = rest).
    { replace (field ++ ","%char :: rest)
        with ((field ++ [","%char]) ++ rest)
        by (rewrite <- app_assoc; reflexivity).
      replace (S (List.length field))
        with (List.length (field ++ [","%char]))
        by (rewrite length_app; simpl; lia).
      rewrite skipn_app, skipn_all, Nat.sub_diag. reflexivity. }
    rewrite Hfirst, Hskip. unfold sizeof_str.
    repeat split.
    + intros H. apply Nat.leb_le in H. now rewrite H.
    + intros H1 H2.
      apply Nat.leb_gt in H1. apply Nat.leb_le in H2. now rewrite H1, H2.
    + intros H1 H2.
      apply Nat.leb_gt in H1. apply Nat.leb_gt in H2. now rewrite H1, H2.
Qed.

(** The last case of X12 on the line "10,20". *)
Lemma bluetooth_parse_coordinates_by_shape_witness :
  bluetooth_parse_coordinates "10,20"
  = Converted (atof (list_ascii_of_string "10"))
      (atof (list_ascii_of_string "20"))
      (between (-90) 90 (atof (list_ascii_of_string "10"))
       && between (-180) 180 (atof (list_ascii_of_string "20"))).
Proof.
  assert (Hc : ~ In ","%char (list_ascii_of_string "10")).
  { simpl. intros [H | [H | []]]; discriminate. }
  pose proof (proj2 bluetooth_parse_coordinates_by_shape
                (list_ascii_of_string "10") (list_ascii_of_string "20") Hc)
    as H.
  cbv zeta in H. destruct H as (_ & _ & H).
  apply H; simpl; lia.
Defined.

End CommandShape.

(** ** Line reading of bluetooth.c *)

Section LineReading.

Import BluetoothLine.

Local Open Scope Z_scope.

Lemma printable_not_newline (c : ascii) :
  printable c = true -> is_newline c = false.
Proof.
  unfold printable, is_newline. intros H.
  apply andb_true_iff in H. destruct H as [H1 H2].
  apply Z.leb_le in H1.
  apply orb_false_iff. split; apply Z.eqb_neq; lia.
Qed.

(** The loop keeps what it found in the buffer, adds printable
    characters only, never fills the last byte, and leaves a tail of
    its input unread. *)
Lemma read_loop_invariant (max_length : Z) (rx : list ascii) :
  forall line line' rest,
    read_loop max_length rx line = (line', rest) ->
    (exists added,
       line' = line ++ added /\
       Forall (fun c => printable c = true) added) /\
    (Z.of_nat (List.length line) <= max_length - 1 ->
     Z.of_nat (List.length line') <= max_length - 1) /\
    (exists taken, rx = taken ++ rest).
Proof.
  induction rx as [ | c rx IH ]; intros line line' rest; simpl.
  - intros H. injection H as <- <-. split; [ | split ].
    + exists []. rewrite app_nil_r. auto.
    + auto.
    + exists []. reflexivity.
  - destruct (Z.ltb_spec (Z.of_nat (List.length line)) (max_length - 1))
      as [Hroom | Hfull].
    + destruct (is_newline c) eqn:Hnl.
      * destruct (Z.ltb_spec 0 (Z.of_nat (List.length line))) as [Hpos | H0].
        -- intros H. injection H as <- <-. split; [ | split ].
           ++ exists []. rewrite app_nil_r. auto.
           ++ auto.
           ++ exists [c]. reflexivity.
        -- intros H. destruct (IH _ _ _ H) as (Ha & Hb & taken & ->).
           split; [ exact Ha | ]. split; [ exact Hb | ].
           exists (c :: taken). reflexivity.
      * destruct (printable c) eqn:Hp.
        -- intros H. destruct (IH _ _ _ H) as ((added & -> & Hadd) & Hb
                                                 & taken & ->).
           split; [ | split ].
           ++ exists (c :: added). rewrite <- app_assoc. split; auto.
           ++ intros _. apply Hb. rewrite length_app. simpl. lia.
           ++ exists (c :: taken). reflexivity.
        -- intros H. destruct (IH _ _ _ H) as (Ha & Hb & taken & ->).
           split; [ exact Ha | ]. split; [ exact Hb | ].
           exists (c :: taken). reflexivity.
    + intros H. injection H as <- <-. split; [ | split ].
      * exists []. rewrite app_nil_r. auto.
      * auto.
      * exists []. reflexivity.
Qed.

(** X13.  [bluetooth_read_line] answers -1 and reads nothing when the
    module is not initialised or the buffer has no room.  Otherwise the
    value returned is the length of the line stored, at most
    [max_length - 1]; the line holds printable characters only, so no
    line end and no control character; and the characters not taken
    are a tail of what the UART had. *)
Theorem bluetooth_read_line_result
    (initialized : bool) (max_length : Z) (rx : list ascii) :
  (initialized = false \/ max_length <= 0 ->
   bluetooth_read_line initialized max_length rx = (-1, [], rx)) /\
  (initialized = true -> 0 < max_length ->
   forall n line rest,
     bluetooth_read_line initialized max_length rx = (n, line, rest) ->
     n = Z.of_nat (List.length line) /\
     0 <= n <= max_length - 1 /\
     Forall (fun c => printable c = true) line /\
     exists taken, rx = taken ++ rest).
Proof.
  unfold bluetooth_read_line. split.
  - intros [-> | H]; [ reflexivity | ].
    apply Z.leb_le in H. rewrite H. now rewrite orb_true_r.
  - intros -> Hmax n line rest. simpl.
    destruct (Z.leb_spec max_length 0) as [H | _]; [ lia | ].
    destruct (read_loop max_length rx []) as [line' rest'] eqn:Hloop.
    intros H. injection H as <- <- <-.
    destruct (read_loop_invariant _ _ _ _ _ Hloop)
      as ((added & -> & Hadd) & Hlen & Htaken).
    simpl in *. split; [ reflexivity | ]. split; [ | split ].
    + split; [ lia | apply Hlen; lia ].
    + exact Hadd.
    + exact Htaken.
Qed.

Lemma bluetooth_read_line_result_witness :
  bluetooth_read_line false 128 (list_ascii_of_string "STOP")
  = (-1, [], list_ascii_of_string "STOP").
Proof.
  apply (proj1 (bluetooth_read_line_result false 128
                  (list_ascii_of_string "STOP"))).
  left. reflexivity.
Defined.

Lemma read_loop_skips (max_length : Z) (junk rx : list ascii) :
  1 < max_length ->
  Forall (fun c => printable c = false) junk ->
  read_loop max_length (junk ++ rx) [] = read_loop max_length rx [].
Proof.
  intros Hmax Hjunk. induction Hjunk as [ | c junk Hc _ IH ]; simpl;
    [ reflexivity | ].
  destruct (Z.ltb_spec 0 (max_length - 1)) as [_ | H]; [ | lia ].
  rewrite Hc. destruct (is_newline c); exact IH.
Qed.

Lemma read_loop_stores (max_length : Z) (text rx : list ascii) :
  Forall (fun c => printable c = true) text ->
  forall line,
    Z.of_nat (List.length line + List.length text) <= max_length - 1 ->
    read_loop max_length (text ++ rx) line
    = read_loop max_length rx (line ++ text).
Proof.
  intros Htext. induction Htext as [ | c text Hc _ IH ]; intros line Hlen;
    simpl.
  - now rewrite app_nil_r.
  - simpl in Hlen.
    destruct (Z.ltb_spec (Z.of_nat (List.length line)) (max_length - 1))
      as [_ | H]; [ | lia ].
    rewrite (printable_not_newline c Hc), Hc.
    rewrite IH.
    + now rewrite <- app_assoc.
    + rewrite length_app. simpl. lia.
Qed.

(** X14.  Round trip of a command line.  When the UART delivers any
    run of line ends and unprintable characters, then a non-empty text
    of printable characters that leaves a byte of the buffer free, then
    a line end, [bluetooth_read_line] returns exactly that text and its
    length, and leaves what follows the line end in the UART. *)
Theorem bluetooth_read_line_round_trip
    (max_length : Z) (junk text rest : list ascii) (nl : ascii) :
  Forall (fun c => printable c = false) junk ->
  Forall (fun c => printable c = true) text ->
  text <> [] ->
  Z.of_nat (List.length text) < max_length - 1 ->
  is_newline nl = true ->
  bluetooth_read_line true max_length (junk ++ text ++ nl :: rest)
  = (Z.of_nat (List.length text), text, rest).
Proof.
  intros Hjunk Htext Hne Hlen Hnl. unfold bluetooth_read_line. simpl.
  destruct (Z.leb_spec max_length 0) as [H | _]; [ lia | ].
  rewrite read_loop_skips by (auto; lia).
  rewrite read_loop_stores by (auto; simpl; lia).
  simpl.
  destruct (Z.ltb_spec (Z.of_nat (List.length text)) (max_length - 1))
    as [_ | H]; [ | lia ].
  rewrite Hnl.
  destruct (Z.ltb_spec 0 (Z.of_nat (List.length text))) as [_ | H];
    [ reflexivity | ].
  destruct text; [ contradiction | simpl in H; lia ].
Qed.

Lemma bluetooth_read_line_round_trip_witness :
  bluetooth_read_line true 128
    (list_ascii_of_string "STOP" ++ "010"%char :: list_ascii_of_string "1,2")
  = (4, list_ascii_of_string "STOP", list_ascii_of_string "1,2").
Proof.
  apply (bluetooth_read_line_round_trip 128 []
           (list_ascii_of_string "STOP") (list_ascii_of_string "1,2")
           "010"%char).
  - constructor.
  - repeat constructor.
  - discriminate.
  - simpl. lia.
  - reflexivity.
Defined.

End LineReading.

(** ** The 16-bit samples of magnetometer.c *)

Section SampleBytes.

Import MagnetometerBus.

Local Open Scope Z_scope.

Lemma byte_high_bits (b n : Z) : is_byte b -> 8 <= n -> Z.testbit b n = false.
Proof.
  unfold is_byte. intros Hb Hn.
  destruct (Z.eq_dec b 0) as [ -> | Hne ]; [ apply Z.bits_0 | ].
  apply Z.bits_above_log2; [ lia | ].
  assert (Z.log2 b < 8); [ | lia ].
  apply Z.log2_lt_pow2; lia.
Qed.

Lemma lor_of_bytes (lo hi : Z) :
  is_byte lo -> Z.lor (Z.shiftl hi 8) lo = hi * 256 + lo.
Proof.
  intros Hlo.
  assert (Hland : Z.land (Z.shiftl hi 8) lo = 0).
  { apply Z.bits_inj'. intros n Hn.
    rewrite Z.land_spec, Z.bits_0.
    destruct (Z.lt_ge_cases n 8) as [Hlt | Hge].
    - rewrite Z.shiftl_spec by exact Hn.
      rewrite Z.testbit_neg_r by lia. reflexivity.
    - rewrite (byte_high_bits lo n Hlo Hge). apply andb_false_r. }
  pose proof (Z.add_lor_land (Z.shiftl hi 8) lo) as H.
  rewrite Hland in H. rewrite Z.add_0_r in H. rewrite H.
  rewrite Z.shiftl_mul_pow2 by lia. reflexivity.
Qed.

(** X15.  The two bytes of a sample are put together as a little-endian
    two's complement number: the value assembled is a 16-bit signed
    integer whose low and high bytes are the bytes read, and every
    16-bit signed integer is assembled back from its two bytes; an
    initialised [magnetometer_read_raw] returns the three values whose
    bytes the bus delivered. *)
Theorem assemble_little_endian :
  (forall lo hi : Z,
     is_byte lo -> is_byte hi ->
     - 32768 <= assemble lo hi <= 32767 /\
     assemble lo hi mod 256 = lo /\
     (assemble lo hi / 256) mod 256 = hi) /\
  (forall v : Z,
     - 32768 <= v <= 32767 ->
     assemble (v mod 256) ((v / 256) mod 256) = v) /\
  (forall (m : Magnetometer.mag_module) (x y z : Z),
     Magnetometer.initialized m = true ->
     - 32768 <= x <= 32767 -> - 32768 <= y <= 32767 ->
     - 32768 <= z <= 32767 ->
     magnetometer_read_raw m
       (Some [x mod 256; (x / 256) mod 256;
              y mod 256; (y / 256) mod 256;
              z mod 256; (z / 256) mod 256])
     = Some (x, y, z)).
Proof.
  assert (Hback : forall v : Z,
             - 32768 <= v <= 32767 ->
             assemble (v mod 256) ((v / 256) mod 256) = v);
    [ | split; [ | split; [ exact Hback | ] ] ].
  3: { intros m x y z Hi Hx Hy Hz. unfold magnetometer_read_raw.
       rewrite Hi. simpl negb. cbv iota.
       now rewrite (Hback x Hx), (Hback y Hy), (Hback z Hz). }
  2: { intros lo hi Hlo Hhi. unfold assemble, int16_cast.
    rewrite lor_of_bytes by exact Hlo. unfold is_byte in *.
    rewrite (Z.mod_small (hi * 256 + lo)) by lia.
    destruct (Z.ltb_spec (hi * 256 + lo) 32768) as [Hs | Hs].
    + split; [ lia | ]. split.
      * rewrite Z.add_comm, Z.mod_add by lia. apply Z.mod_small. lia.
      * rewrite Z.add_comm, Z.div_add by lia.
        rewrite (Z.div_small lo) by lia. apply Z.mod_small. lia.
    + split; [ lia | ]. split.
      * replace (hi * 256 + lo - 65536) with (lo + (hi - 256) * 256) by ring.
        rewrite Z.mod_add by lia. apply Z.mod_small. lia.
      * replace (hi * 256 + lo - 65536) with (lo + (hi - 256) * 256) by ring.
        rewrite Z.div_add by lia. rewrite (Z.div_small lo) by lia.
        replace (0 + (hi - 256)) with (hi + (-1) * 256) by ring.
        rewrite Z.mod_add by lia. apply Z.mod_small. lia. }
  intros v Hv. unfold assemble, int16_cast.
    assert (Hlo : is_byte (v mod 256))
      by (unfold is_byte; apply Z.mod_pos_bound; lia).
    rewrite lor_of_bytes by exact Hlo.
    pose proof (Z.div_mod v 256 ltac:(lia)) as Hv1.
    pose proof (Z.mod_pos_bound v 256 ltac:(lia)) as Hv2.
    pose proof (Z.div_mod (v / 256) 256 ltac:(lia)) as Hq1.
    pose proof (Z.mod_pos_bound (v / 256) 256 ltac:(lia)) as Hq2.
    set (q := v / 256) in *. set (r := v mod 256) in *.
    set (qq := q / 256) in *. set (qr := q mod 256) in *.
    assert (Hqq : qq = 0 \/ qq = -1) by lia.
    rewrite (Z.mod_small (qr * 256 + r)) by lia.
    destruct (Z.ltb_spec (qr * 256 + r) 32768) as [Hs | Hs]; lia.
Qed.

(** The properties of X15 on the bytes 0x34, 0x12 and 0xFF, 0xFF:
    the values 4660 and -1. *)
Lemma assemble_little_endian_witness :
  (assemble 52 18 mod 256 = 52 /\ (assemble 52 18 / 256) mod 256 = 18) /\
  assemble (-1 mod 256) ((-1 / 256) mod 256) = -1.
Proof.
  destruct assemble_little_endian as (Hbytes & Hback & _).
  split.
  - destruct (Hbytes 52 18) as (_ & Hlo & Hhi);
      [ unfold is_byte; lia | unfold is_byte; lia | ].
    split; assumption.
  - apply Hback. lia.
Defined.

End SampleBytes.

(** ** NMEA decoding of gps.c *)

Section NmeaDecoding.

Import Gps GpsReceiver.

Lemma int_of_double_floor (d : Z) (f : R) :
  (0 <= d)%Z -> 0 <= f < 1 -> C.int_of_double (IZR d + f) = d.
Proof.
  intros Hd Hf. unfold C.int_of_double.
  apply IZR_le in Hd.
  destruct (Rle_dec 0 (IZR d + f)) as [_ | Hn]; [ | lra ].
  symmetry. apply Int_part_spec. lra.
Qed.

Lemma is_int_small (z : Z) :
  (- 2147483648 <= z < 2147483648)%Z -> is_int z = true.
Proof.
  intros H. unfold is_int. apply andb_true_iff.
  split; [ apply Z.leb_le | apply Z.ltb_lt ]; lia.
Qed.

(** The arithmetic of [convert_to_degrees] on the number 100 d + m. *)
Lemma convert_to_degrees_value (token : list ascii) (q : Q) (d : Z) (m : R) :
  (4 <= List.length token)%nat ->
  Bluetooth.atof token = Bluetooth.Finite q ->
  Q2R q = 100 * IZR d + m ->
  (0 <= d < 21474836)%Z ->
  0 <= m < 100 ->
  convert_to_degrees token = Some (IZR d + m / 60).
Proof.
  intros Hlen Hatof Hq Hd Hm. unfold convert_to_degrees.
  apply Nat.ltb_ge in Hlen. rewrite Hlen, Hatof, Hq.
  replace ((100 * IZR d + m) / 100) with (IZR d + m / 100) by field.
  rewrite int_of_double_floor by (try lia; lra).
  rewrite !is_int_small by lia. simpl. f_equal. rewrite mult_IZR. field.
Qed.

(** X16.  [convert_to_degrees] decodes the NMEA notation DDMM.MMMM: a
    text of at least four characters whose number is 100 d + m, with d
    whole degrees and m minutes, yields d + m / 60 degrees; a text of
    fewer than four characters yields 0 whatever it holds. *)
Theorem convert_to_degrees_decodes :
  (forall token : list ascii,
     (List.length token < 4)%nat -> convert_to_degrees token = Some 0) /\
  (forall (token : list ascii) (q : Q) (d : Z) (m : R),
     (4 <= List.length token)%nat ->
     Bluetooth.atof token = Bluetooth.Finite q ->
     Q2R q = 100 * IZR d + m ->
     (0 <= d < 21474836)%Z ->
     0 <= m < 100 ->
     convert_to_degrees token = Some (IZR d + m / 60)).
Proof.
  split.
  - intros token H. unfold convert_to_degrees.
    apply Nat.ltb_lt in H. now rewrite H.
  - exact convert_to_degrees_value.
Qed.

Lemma Q2R_4807_038 :
  Bluetooth.atof (list_ascii_of_string "4807.038")
  = Bluetooth.Finite (inject_Z 4807038 * Qpower 10 (-3)) /\
  Q2R (inject_Z 4807038 * Qpower 10 (-3)) = 100 * 48 + 7038 / 1000.
Proof.
  split; [ reflexivity | ].
  unfold Q2R. simpl. field.
Qed.

(** The latitude field 4807.038 of the usual example sentence is
    48 degrees and 7.038 minutes. *)
Lemma convert_to_degrees_decodes_witness :
  convert_to_degrees (list_ascii_of_string "4807.038")
  = Some (48 + 7038 / 1000 / 60).
Proof.
  destruct Q2R_4807_038 as [Ha Hq].
  apply (proj2 convert_to_degrees_decodes
           (list_ascii_of_string "4807.038")
           (inject_Z 4807038 * Qpower 10 (-3))%Q 48%Z (7038 / 1000)).
  - simpl. lia.
  - exact Ha.
  - exact Hq.
  - lia.
  - lra.
Defined.

Lemma strtok_from_empty_field (a b : list ascii) :
  forall current,
    strtok_from (a ++ ","%char :: ","%char :: b) current
    = strtok_from (a ++ ","%char :: b) current.
Proof.
  induction a as [ | c a IH ]; intros current; simpl.
  - destruct current; reflexivity.
  - destruct (Ascii.eqb c ","%char).
    + destruct current; now rewrite IH.
    + apply IH.
Qed.

Lemma strtok_from_tokens (s : list ascii) :
  forall current,
    ~ In ","%char current ->
    Forall (fun t => t <> [] /\ ~ In ","%char t) (strtok_from s current).
Proof.
  induction s as [ | c s IH ]; intros current Hc; simpl.
  - destruct current; constructor; [ | constructor ].
    split; [ discriminate | exact Hc ].
  - destruct (Ascii.eqb_spec c ","%char) as [ -> | Hne ].
    + destruct current as [ | x current ]; [ apply IH; auto | ].
      constructor; [ split; [ discriminate | exact Hc ] | apply IH; auto ].
    + apply IH. intros Hin. apply in_app_or in Hin.
      destruct Hin as [Hin | [Hin | []]]; [ auto | congruence ].
Qed.

(** X17.  The fields of a sentence are taken with [strtok], which
    never returns an empty token: every token is non-empty and free of
    commas, and an empty field (two commas in a row) is not counted,
    so a sentence with an empty field is decoded exactly like the
    sentence without it, every later field one place earlier. *)
Theorem parse_gga_sentence_skips_empty_fields :
  (forall s : list ascii,
     Forall (fun t => t <> [] /\ ~ In ","%char t) (strtok_all s)) /\
  (forall (d : gps_data_t) (a b : list ascii),
     parse_gga_sentence d (a ++ ","%char :: ","%char :: b)
     = parse_gga_sentence d (a ++ ","%char :: b)).
Proof.
  split.
  - intros s. apply strtok_from_tokens. intros [].
  - intros d a b. unfold parse_gga_sentence, strtok_all.
    now rewrite strtok_from_empty_field.
Qed.

End NmeaDecoding.

Section NmeaSentences.

Import Gps GpsReceiver.

Lemma parse_field_keeps_fix (d d' : gps_data_t) (field : nat)
    (token : list ascii) :
  (field < 6)%nat ->
  parse_field d field token = Some d' ->
  satellites d' = satellites d /\ fix_quality d' = fix_quality d.
Proof.
  intros Hf.
  destruct field as [ | [ | [ | [ | [ | [ | field ] ] ] ] ] ]; [ .. | lia ];
    unfold parse_field.
  - intros H. injection H as <-. auto.
  - destruct (6 <=? List.length token)%nat;
      intros H; injection H as <-; auto.
  - destruct (0 <? List.length token)%nat;
      [ destruct (convert_to_degrees token) | ];
      try discriminate; intros H; injection H as <-; auto.
  - destruct (first_is _ _); intros H; injection H as <-; auto.
  - destruct (0 <? List.length token)%nat;
      [ destruct (convert_to_degrees token) | ];
      try discriminate; intros H; injection H as <-; auto.
  - destruct (first_is _ _); intros H; injection H as <-; auto.
Qed.

Lemma parse_fields_keeps_fix (tokens : list (list ascii)) :
  forall (d d' : gps_data_t) (field : nat),
    (field + List.length tokens <= 6)%nat ->
    parse_fields d field tokens = Some d' ->
    satellites d' = satellites d /\ fix_quality d' = fix_quality d.
Proof.
  induction tokens as [ | token rest IH ]; intros d d' field Hlen; simpl.
  - intros H. injection H as <-. auto.
  - simpl in Hlen. destruct (field <? 15)%nat;
      [ | intros H; injection H as <-; auto ].
    destruct (parse_field d field token) as [ d1 | ] eqn:H1;
      [ | discriminate ].
    intros H. destruct (IH d1 d' (S field)) as [Hs Hq]; [ lia | exact H | ].
    destruct (parse_field_keeps_fix d d1 field token) as [Hs1 Hq1];
      [ lia | exact H1 | ].
    split; congruence.
Qed.

Lemma parse_fields_cons (d : gps_data_t) (field : nat) (token : list ascii)
    (rest : list (list ascii)) :
  (field < 15)%nat ->
  parse_fields d field (token :: rest)
  = match parse_field d field token with
    | Some d' => parse_fields d' (S field) rest
    | None => None
    end.
Proof.
  intros H. cbn [parse_fields].
  apply Nat.ltb_lt in H. now rewrite H.
Qed.

Lemma positive_length (t : list ascii) :
  t <> [] -> (0 <? List.length t)%nat = true.
Proof. destruct t; [ congruence | reflexivity ]. Qed.

(** What the fields 1 to 5 leave of the tokens of a short sentence:
    the time of token 1 when it has six characters, the latitude of
    token 2 negated when token 3 begins with S, the longitude of token
    4 negated when token 5 begins with W. *)
Lemma parse_fields_short (tokens : list (list ascii)) (d d' : gps_data_t) :
  Forall (fun t => t <> []) tokens ->
  (List.length tokens <= 6)%nat ->
  parse_fields d 0 tokens = Some d' ->
  altitude d' = altitude d /\
  time d'
  = match nth_error tokens 1 with
    | Some t =>
        if (6 <=? List.length t)%nat
        then string_of_list_ascii (firstn 6 t) else time d
    | None => time d
    end /\
  match nth_error tokens 2 with
  | Some t =>
      exists v, convert_to_degrees t = Some v /\
                latitude d'
                = if first_is "S"%char (nth 3 tokens []) then - v else v
  | None => latitude d' = latitude d
  end /\
  match nth_error tokens 4 with
  | Some t =>
      exists v, convert_to_degrees t = Some v /\
                longitude d'
                = if first_is "W"%char (nth 5 tokens []) then - v else v
  | None => longitude d' = longitude d
  end.
Proof.
  intros Hne Hlen.
  assert (Hpos : forall t, In t tokens -> (0 <? List.length t)%nat = true).
  { intros t Hin. apply positive_length.
    exact (proj1 (Forall_forall _ _) Hne t Hin). }
  destruct tokens as [ | t0 [ | t1 [ | t2 [ | t3 [ | t4 [ | t5 [ | t6 rest ]
                     ] ] ] ] ] ];
    try (simpl in Hlen; lia);
    rewrite ?parse_fields_cons by lia;
    cbn [parse_fields parse_field nth_error nth];
    rewrite ?(Hpos t2), ?(Hpos t4) by (simpl; auto 10);
    try (destruct (6 <=? List.length t1)%nat);
    try (destruct (convert_to_degrees t2) as [ v2 | ]; [ | discriminate ]);
    try (destruct (first_is "S"%char t3));
    try (rewrite ?parse_fields_cons by lia; cbn [parse_fields parse_field]);
    try (destruct (convert_to_degrees t4) as [ v4 | ]; [ | discriminate ]);
    try (destruct (first_is "W"%char t5));
    intros E; injection E as <-;
    cbn [altitude time latitude longitude negate_latitude negate_longitude
         first_is];
    repeat split; eauto.
Qed.

(** X18.  A sentence with six tokens or fewer never reaches the fields
    of fix quality and satellite count: both keep the values of the
    sentence before, and the fix flag returned is computed from those
    old values, while time, latitude and longitude are overwritten
    from whatever tokens the sentence has: the time by the first six
    characters of token 1 when it has that many, the latitude by the
    conversion of token 2, negated when token 3 begins with S, the
    longitude by the conversion of token 4, negated when token 5
    begins with W; a field whose token is missing keeps its value, and
    so does the altitude. *)
Theorem parse_gga_sentence_short_keeps_fix
    (d d' : gps_data_t) (sentence : list ascii) (valid : bool) :
  (List.length (strtok_all sentence) <= 6)%nat ->
  parse_gga_sentence d sentence = Some (d', valid) ->
  satellites d' = satellites d /\
  fix_quality d' = fix_quality d /\
  fix_valid d' = valid /\
  valid = ((satellites d >=? 4) && (fix_quality d >? 0))%Z /\
  altitude d' = altitude d /\
  time d'
  = match nth_error (strtok_all sentence) 1 with
    | Some t =>
        if (6 <=? List.length t)%nat
        then string_of_list_ascii (firstn 6 t) else time d
    | None => time d
    end /\
  match nth_error (strtok_all sentence) 2 with
  | Some t =>
      exists v,
        convert_to_degrees t = Some v /\
        latitude d'
        = if first_is "S"%char (nth 3 (strtok_all sentence) [])
          then - v else v
  | None => latitude d' = latitude d
  end /\
  match nth_error (strtok_all sentence) 4 with
  | Some t =>
      exists v,
        convert_to_degrees t = Some v /\
        longitude d'
        = if first_is "W"%char (nth 5 (strtok_all sentence) [])
          then - v else v
  | None => longitude d' = longitude d
  end.
Proof.
  intros Hlen. unfold parse_gga_sentence.
  destruct (parse_fields d 0 (strtok_all sentence)) as [ d1 | ] eqn:H1;
    [ | discriminate ].
  intros H. injection H as <- <-.
  cbn [satellites fix_quality fix_valid altitude time latitude longitude].
  destruct (parse_fields_keeps_fix (strtok_all sentence) d d1 0 Hlen H1)
    as [Hs Hq].
  assert (Hne : Forall (fun t : list ascii => t <> []) (strtok_all sentence)).
  { pose proof (strtok_from_tokens sentence [] (fun H => H)) as Ht.
    apply Forall_forall. intros t Hin.
    exact (proj1 (proj1 (Forall_forall _ _) Ht t Hin)). }
  destruct (parse_fields_short _ d d1 Hne Hlen H1) as (Ha & Ht & Hlat & Hlng).
  rewrite Hs, Hq. auto 10.
Qed.

Lemma convert_99_99 :
  convert_to_degrees (list_ascii_of_string "99.99")
  = Some (IZR 0 + 9999 / 100 / 60).
Proof.
  apply (convert_to_degrees_value _ (inject_Z 9999 * Qpower 10 (-2))%Q).
  - simpl. lia.
  - reflexivity.
  - unfold Q2R. simpl. field.
  - lia.
  - lra.
Qed.

Lemma no_fix_sentence_parsed :
  parse_gga_sentence with_fix no_fix_sentence
  = Some (mk_gps_data 0 (IZR 0 + 9999 / 100 / 60) 545 8%Z 1%Z true "123519",
          true).
Proof.
  unfold parse_gga_sentence, no_fix_sentence, with_fix.
  replace (strtok_all _)
    with (map list_ascii_of_string
            ["$GPGGA"; "123519"; "0"; "00"; "99.99"; "*48"]%string)
    by reflexivity.
  pose proof convert_99_99 as H99. cbn -[convert_to_degrees] in H99.
  cbn -[convert_to_degrees]. rewrite H99.
  replace (convert_to_degrees _) with (Some 0) by reflexivity.
  reflexivity.
Qed.

(** The hypotheses of X18 hold on that sentence, received after a
    fix: the fix stays flagged valid with eight satellites, and the
    position has become latitude 0, longitude 1.6665. *)
Lemma parse_gga_sentence_short_keeps_fix_witness :
  parse_gga_sentence with_fix no_fix_sentence
  = Some (mk_gps_data 0 (IZR 0 + 9999 / 100 / 60) 545 8%Z 1%Z true "123519",
          true) /\
  true = ((8 >=? 4) && (1 >? 0))%Z.
Proof.
  split; [ exact no_fix_sentence_parsed | ].
  destruct (parse_gga_sentence_short_keeps_fix with_fix _ no_fix_sentence
              true ltac:(simpl; lia) no_fix_sentence_parsed)
    as (_ & _ & _ & Hv & _).
  exact Hv.
Defined.

End NmeaSentences.

(** ** The line buffer of gps_update *)

Section NmeaFraming.

Import Gps GpsReceiver.

Lemma receive_app (rx1 rx2 : list ascii) :
  forall (d : gps_data_t) (buffer : list ascii),
    receive d buffer (rx1 ++ rx2)
    = match receive d buffer rx1 with
      | Some (d', buffer') => receive d' buffer' rx2
      | None => None
      end.
Proof.
  induction rx1 as [ | c rx1 IH ]; intros d buffer; simpl;
    [ reflexivity | ].
  destruct (BluetoothLine.is_newline c).
  - destruct (0 <? List.length buffer)%nat; [ | apply IH ].
    destruct (is_gpgga (c_string buffer)); [ | apply IH ].
    destruct (parse_gga_sentence d (c_string buffer)) as [ [d' v] | ];
      [ apply IH | reflexivity ].
  - destruct (List.length buffer <? 255)%nat; apply IH.
Qed.

(** X19.  [gps_update] keeps the unfinished line from one call to the
    next: on an initialised module, a call on the characters [rx1]
    followed by a call on [rx2] leaves what a single call on
    [rx1 ++ rx2] leaves, so a sentence cut in two by the end of a pass
    is decoded whole. *)
Theorem gps_update_resumes (r : receiver) (rx1 rx2 : list ascii) :
  initialized (module r) = true ->
  gps_update r (rx1 ++ rx2)
  = match gps_update r rx1 with
    | Some (r1, _) => gps_update r1 rx2
    | None => None
    end.
Proof.
  intros Hi. unfold gps_update. rewrite Hi. simpl.
  rewrite receive_app.
  destruct (receive (current_gps_data (module r)) (line_buffer r) rx1)
    as [ [d1 buffer1] | ]; [ | reflexivity ].
  simpl. rewrite ?Hi. reflexivity.
Qed.

Lemma gps_update_resumes_witness :
  gps_update (mk_receiver (fixed_at 1 2 3 4) [])
    (list_ascii_of_string "$GPR" ++ list_ascii_of_string "MC,1")
  = match gps_update (mk_receiver (fixed_at 1 2 3 4) [])
            (list_ascii_of_string "$GPR") with
    | Some (r1, _) => gps_update r1 (list_ascii_of_string "MC,1")
    | None => None
    end.
Proof.
  apply (gps_update_resumes (mk_receiver (fixed_at 1 2 3 4) [])).
  reflexivity.
Defined.

(** Characters other than line ends are appended to the buffer up to
    its 255th place and dropped beyond. *)
Lemma receive_line (line rx : list ascii) :
  Forall (fun c => BluetoothLine.is_newline c = false) line ->
  forall (d : gps_data_t) (buffer : list ascii),
    (List.length buffer <= 255)%nat ->
    receive d buffer (line ++ rx)
    = receive d (firstn 255 (buffer ++ line)) rx.
Proof.
  intros Hline. induction Hline as [ | c line Hc _ IH ];
    intros d buffer Hlen; cbn [app receive].
  - rewrite app_nil_r. now rewrite firstn_all2 by exact Hlen.
  - rewrite Hc. change (sizeof_buffer - 1)%nat with 255%nat.
    destruct (Nat.ltb_spec (List.length buffer) 255) as [Hroom | Hfull].
    + rewrite IH by (rewrite length_app; simpl; lia).
      now rewrite <- app_assoc.
    + rewrite IH by exact Hlen.
      rewrite !firstn_app.
      replace (255 - List.length buffer)%nat with 0%nat by lia.
      reflexivity.
Qed.

(** X20.  Framing of the sentences.  A non-empty run of characters
    without line end, followed by a line end, is one line; the line is
    cut to its first 255 characters; it is handed to
    [parse_gga_sentence] if it begins with "$GPGGA" and changes nothing
    otherwise; in both cases reception goes on with an empty buffer. *)
Theorem receive_complete_line
    (d : gps_data_t) (line rx : list ascii) (nl : ascii) :
  Forall (fun c => BluetoothLine.is_newline c = false) line ->
  line <> [] ->
  BluetoothLine.is_newline nl = true ->
  let text := c_string (firstn 255 line) in
  receive d [] (line ++ nl :: rx)
  = if is_gpgga text then
      match parse_gga_sentence d text with
      | Some (d', _) => receive d' [] rx
      | None => None
      end
    else receive d [] rx.
Proof.
  intros Hline Hne Hnl text.
  rewrite receive_line by (auto; simpl; lia).
  cbn [app receive]. rewrite Hnl. fold text.
  destruct (Nat.ltb_spec 0 (List.length (firstn 255 line))) as [_ | H0].
  - reflexivity.
  - exfalso. destruct line as [ | c line ]; [ contradiction | ].
    simpl in H0. lia.
Qed.

Lemma receive_complete_line_witness :
  receive with_fix [] (list_ascii_of_string "$GPRMC,1" ++ "010"%char :: [])
  = Some (with_fix, []).
Proof.
  rewrite (receive_complete_line with_fix
             (list_ascii_of_string "$GPRMC,1") [] "010"%char).
  - reflexivity.
  - repeat constructor.
  - discriminate.
  - reflexivity.
Defined.

End NmeaFraming.

(** ** Motor commands of the loop *)

Section LoopMotors.

Import Wally WallyRun.

(** Closes a goal about a given event being in a list of events that
    does not hold it. *)
Ltac no_motor_event :=
  let HIn := fresh "HIn" in
  intros ? ? ? ? HIn; simpl in HIn;
  repeat (destruct HIn as [HIn | HIn]; try discriminate);
  contradiction.

Lemma pid_compute_keeps_limits (pid : Pid.pid_controller_t) (x : R) (t : Z) :
  Pid.output_min (snd (Pid.pid_compute pid x t)) = Pid.output_min pid /\
  Pid.output_max (snd (Pid.pid_compute pid x t)) = Pid.output_max pid.
Proof.
  unfold Pid.pid_compute.
  destruct (negb _); [ auto | ].
  destruct (Rle_dec _ 0); [ auto | ].
  destruct (Rgt_dec _ _); [ | destruct (Rlt_dec _ _) ]; simpl; auto.
Qed.

Lemma pid_set_setpoint_keeps_limits (pid : Pid.pid_controller_t) (x : R) :
  Pid.output_min (Pid.pid_set_setpoint pid x) = Pid.output_min pid /\
  Pid.output_max (Pid.pid_set_setpoint pid x) = Pid.output_max pid.
Proof. unfold Pid.pid_set_setpoint. destruct (negb _); simpl; auto. Qed.

Lemma pid_reset_keeps_limits (pid : Pid.pid_controller_t) (t : Z) :
  Pid.output_min (Pid.pid_reset pid t) = Pid.output_min pid /\
  Pid.output_max (Pid.pid_reset pid t) = Pid.output_max pid.
Proof. unfold Pid.pid_reset. destruct (negb _); simpl; auto. Qed.

(** Guard or not, the value returned lies within limits that enclose
    zero. *)
Lemma pid_compute_output_bounded (pid : Pid.pid_controller_t) (x : R) (t : Z) :
  Pid.output_min pid <= 0 <= Pid.output_max pid ->
  Pid.output_min pid <= fst (Pid.pid_compute pid x t) <= Pid.output_max pid.
Proof.
  intros H. unfold Pid.pid_compute.
  destruct (negb _); [ simpl; lra | ].
  destruct (Rle_dec _ 0); [ simpl; lra | ].
  destruct (Rgt_dec _ _); [ | destruct (Rlt_dec _ _) ]; simpl; lra.
Qed.

Lemma int_of_double_bounded (c : R) (b : Z) :
  (0 <= b)%Z -> - IZR b <= c <= IZR b ->
  (- b <= C.int_of_double c <= b)%Z.
Proof.
  intros Hb [Hlo Hhi]. unfold C.int_of_double.
  destruct (Rle_dec 0 c) as [Hpos | Hneg].
  - destruct (base_Int_part c) as [H1 H2].
    split.
    + assert (H : (-1 < Int_part c)%Z) by (apply lt_IZR; lra). lia.
    + apply le_IZR. lra.
  - destruct (base_Int_part (- c)) as [H1 H2].
    split.
    + assert (H : (Int_part (- c) <= b)%Z) by (apply le_IZR; lra). lia.
    + assert (H : (-1 < Int_part (- c))%Z) by (apply lt_IZR; lra). lia.
Qed.

Lemma process_command_keeps_limits (s : loop_state) (i : tick_input) :
  forall s1 ev1,
    process_command s i = Some (s1, ev1) ->
    (heading_limits s -> heading_limits s1) /\
    (Gps.gps_has_target (gps s) = true ->
     Gps.gps_has_target (gps s1) = true) /\
    loop_counter s1 = loop_counter s /\
    Gps.current_gps_data (gps s1) = Gps.current_gps_data (gps s) /\
    forall da a db b, ~ In (MotorsSetBoth da a db b) ev1.
Proof.
  intros s1 ev1. unfold process_command, heading_limits.
  pose proof (pid_reset_keeps_limits (heading_pid s) (clock_at_reset i))
    as [Hr1 Hr2].
  destruct (0 <? _)%Z;
    [ destruct (String.eqb _ _);
      [ | destruct (Bluetooth.bluetooth_parse_coordinates _)
            as [ | | [ lat | | ] [ lng | | ] [ | ] ] ] | ];
    try discriminate;
    intros E; injection E as <- <-; simpl;
    (split; [ | split; [ | split; [ | split ] ] ]); auto;
    try (intros [H1 H2]; split; congruence);
    intros da a db b HIn; simpl in HIn;
    repeat (destruct HIn as [HIn | HIn]; try discriminate);
    exact HIn.
Qed.

Lemma navigate_drives (s : loop_state) (heading : R)
    (gps_data : Gps.gps_data_t) (now : Z) :
  forall s2 ev2,
    navigate s heading gps_data now = (s2, ev2) ->
    (heading_limits s -> heading_limits s2) /\
    gps s2 = gps s /\ loop_counter s2 = loop_counter s /\
    forall da a db b,
      In (MotorsSetBoth da a db b) ev2 ->
      da = Motors.MOTOR_FORWARD /\ db = Motors.MOTOR_FORWARD /\
      (Config.MIN_SPEED <= a <= Config.MAX_SPEED)%Z /\
      (Config.MIN_SPEED <= b <= Config.MAX_SPEED)%Z /\
      (heading_limits s -> (130 <= a <= 230)%Z /\ (140 <= b <= 240)%Z) /\
      motors s2 = Motors.Drive da a db b /\
      navigation_active s2 = true /\
      Gps.fix_valid gps_data = true /\
      Gps.gps_has_target (gps s2) = true /\
      Gps.gps_target_reached (gps s2) = false.
Proof.
  intros s2 ev2.
  assert (Hnone :
            (forall da a db b, ~ In (MotorsSetBoth da a db b) ev2) ->
            gps s2 = gps s -> loop_counter s2 = loop_counter s ->
            heading_pid s2 = heading_pid s ->
            (heading_limits s -> heading_limits s2) /\
            gps s2 = gps s /\ loop_counter s2 = loop_counter s /\
            forall da a db b,
              In (MotorsSetBoth da a db b) ev2 ->
              da = Motors.MOTOR_FORWARD /\ db = Motors.MOTOR_FORWARD /\
              (Config.MIN_SPEED <= a <= Config.MAX_SPEED)%Z /\
              (Config.MIN_SPEED <= b <= Config.MAX_SPEED)%Z /\
              (heading_limits s ->
               (130 <= a <= 230)%Z /\ (140 <= b <= 240)%Z) /\
              motors s2 = Motors.Drive da a db b /\
              navigation_active s2 = true /\
              Gps.fix_valid gps_data = true /\
              Gps.gps_has_target (gps s2) = true /\
              Gps.gps_target_reached (gps s2) = false).
  { intros Hno Hg Hc Hp. unfold heading_limits. rewrite Hp.
    split; [ tauto | ]. split; [ exact Hg | ]. split; [ exact Hc | ].
    intros da a db b HIn. destruct (Hno da a db b HIn). }
  unfold navigate.
  destruct (navigation_active s) eqn:Ha; cbn [andb];
    [ | intros E; injection E as <- <-; apply Hnone;
        [ no_motor_event | reflexivity .. ] ].
  destruct (Gps.fix_valid gps_data) eqn:Hf; cbn [andb];
    [ | intros E; injection E as <- <-; apply Hnone;
        [ no_motor_event | reflexivity .. ] ].
  destruct (Gps.gps_has_target (gps s)) eqn:Ht; cbn [andb];
    [ | intros E; injection E as <- <-; apply Hnone;
        [ no_motor_event | reflexivity .. ] ].
  destruct (Gps.gps_target_reached (gps s)) eqn:Hr;
    [ intros E; injection E as <- <-; apply Hnone;
      [ no_motor_event | reflexivity .. ] | ].
  clear Hnone.
  set (pid1 := Pid.pid_set_setpoint (heading_pid s) _).
  destruct (Pid.pid_compute pid1 heading now) as [c pid2] eqn:Hc.
  intros E.
  assert (E1 := f_equal fst E). assert (E2 := f_equal snd E).
  cbn [fst snd] in E1, E2. subst s2 ev2. clear E.
  destruct (pid_set_setpoint_keeps_limits (heading_pid s)
              (Gps.gps_bearing_to_target (gps s))) as [Hs1 Hs2].
  fold pid1 in Hs1, Hs2.
  pose proof (pid_compute_keeps_limits pid1 heading now) as [Hk1 Hk2].
  pose proof (pid_compute_output_bounded pid1 heading now) as Hout.
  rewrite Hc in Hk1, Hk2, Hout. simpl in Hk1, Hk2, Hout.
  unfold heading_limits.
  cbn [with_command heading_pid gps loop_counter motors navigation_active
       Motors.motors_set_both_motors In].
  split; [ intros [H1 H2]; split; congruence | ].
  split; [ reflexivity | ]. split; [ reflexivity | ].
  intros da a db b [E | []].
  assert (Eda : da = Motors.MOTOR_FORWARD) by congruence.
  assert (Edb : db = Motors.MOTOR_FORWARD) by congruence.
  assert (Ea : a = limit_speed (Config.BASE_SPEED_A - C.int_of_double c))
    by congruence.
  assert (Eb : b = limit_speed (Config.BASE_SPEED_B + C.int_of_double c))
    by congruence.
  subst da db a b. clear E.
  assert (Hlim : forall z, (Config.MIN_SPEED <= limit_speed z
                            <= Config.MAX_SPEED)%Z).
  { intros z. unfold limit_speed, Config.MIN_SPEED, Config.MAX_SPEED.
    destruct (Z.ltb_spec z 30); [ lia | ].
    destruct (Z.gtb_spec z 255); lia. }
  split; [ reflexivity | ]. split; [ reflexivity | ].
  split; [ apply Hlim | ]. split; [ apply Hlim | ].
  split; [ | auto ].
  intros [H1 H2].
  assert (Hcz : (- (50) <= C.int_of_double c <= 50)%Z).
  { apply (int_of_double_bounded c 50); [ lia | ].
    rewrite Hs1, Hs2, H1, H2 in Hout. lra. }
  unfold limit_speed, Config.MIN_SPEED, Config.MAX_SPEED,
    Config.BASE_SPEED_A, Config.BASE_SPEED_B.
  destruct (Z.ltb_spec (180 - C.int_of_double c) 30); [ lia | ].
  destruct (Z.gtb_spec (180 - C.int_of_double c) 255); [ lia | ].
  destruct (Z.ltb_spec (190 + C.int_of_double c) 30); [ lia | ].
  destruct (Z.gtb_spec (190 + C.int_of_double c) 255); lia.
Qed.

(** *** Invariants of the loop over passes *)

(** A pass is its four stages in sequence. *)
Lemma tick_stages (s s' : loop_state) (i : tick_input) (evs : list event) :
  tick s i = Some (s', evs) ->
  exists s0 heading gps_data s1 ev1 s2 ev2 ev3,
    read_sensors s i = (s0, heading, gps_data) /\
    process_command s0 i = Some (s1, ev1) /\
    navigate s1 heading gps_data (clock_at_compute i) = (s2, ev2) /\
    report s2 heading gps_data = (s', ev3) /\
    evs = ev1 ++ ev2 ++ ev3.
Proof.
  unfold tick.
  destruct (read_sensors s i) as [[s0 heading] gps_data] eqn:Hread.
  destruct (process_command s0 i) as [ [s1 ev1] | ] eqn:Hcmd;
    [ | discriminate ].
  destruct (navigate s1 heading gps_data (clock_at_compute i))
    as [s2 ev2] eqn:Hnav.
  destruct (report s2 heading gps_data) as [s3 ev3] eqn:Hrep.
  intros E. exists s0, heading, gps_data, s1, ev1, s2, ev2, ev3.
  assert (E1 : s3 = s') by congruence.
  assert (E2 : ev1 ++ ev2 ++ ev3 = evs) by congruence.
  subst. auto 10.
Qed.

Lemma read_sensors_counter (s : loop_state) (i : tick_input) :
  forall s0 heading gps_data,
    read_sensors s i = (s0, heading, gps_data) ->
    loop_counter s0 = loop_counter s.
Proof.
  intros s0 heading gps_data. unfold read_sensors.
  destruct (Magnetometer.magnetometer_get_filtered_heading _ _) as [h m'].
  intros E. assert (E1 := f_equal (fun x => fst (fst x)) E).
  cbn [fst] in E1. subst s0. reflexivity.
Qed.

Lemma report_counter (s s' : loop_state) (heading : R)
    (gps_data : Gps.gps_data_t) (ev : list event) :
  report s heading gps_data = (s', ev) ->
  (0 <= loop_counter s < 20)%Z ->
  loop_counter s' = ((loop_counter s + 1) mod 20)%Z /\
  reports ev = Z.to_nat ((loop_counter s + 1) / 20).
Proof.
  unfold report. intros E Hc.
  destruct (Z.geb_spec (loop_counter s + 1) 20) as [Hge | Hlt].
  - assert (E1 := f_equal fst E). assert (E2 := f_equal snd E).
    cbn [fst snd] in E1, E2. subst s' ev. cbn [loop_counter].
    assert (Hc19 : (loop_counter s + 1 = 20)%Z) by lia.
    rewrite Hc19. split; reflexivity.
  - assert (E1 := f_equal fst E). assert (E2 := f_equal snd E).
    cbn [fst snd] in E1, E2. subst s' ev. cbn [loop_counter].
    rewrite Z.mod_small, Z.div_small by lia.
    split; reflexivity.
Qed.

Lemma report_no_drive (s s' : loop_state) (heading : R)
    (gps_data : Gps.gps_data_t) (ev : list event) :
  report s heading gps_data = (s', ev) ->
  forall da a db b, ~ In (MotorsSetBoth da a db b) ev.
Proof.
  unfold report. intros E.
  assert (E2 := f_equal snd E). cbn [snd] in E2.
  destruct (_ >=? 20)%Z; cbn [snd] in E2; subst ev; no_motor_event.
Qed.

Lemma process_command_no_report (s : loop_state) (i : tick_input) :
  forall s1 ev1, process_command s i = Some (s1, ev1) -> reports ev1 = 0%nat.
Proof.
  intros s1 ev1. unfold process_command.
  destruct (0 <? _)%Z;
    [ destruct (String.eqb _ _);
      [ | destruct (Bluetooth.bluetooth_parse_coordinates _)
            as [ | | [ lat | | ] [ lng | | ] [ | ] ] ] | ];
    try discriminate;
    intros E; injection E as <- <-; reflexivity.
Qed.

Lemma navigate_no_report (s : loop_state) (heading : R)
    (gps_data : Gps.gps_data_t) (now : Z) :
  forall s2 ev2,
    navigate s heading gps_data now = (s2, ev2) -> reports ev2 = 0%nat.
Proof.
  intros s2 ev2. unfold navigate.
  destruct (_ && _ && _); [ | intros E; injection E as <- <-; reflexivity ].
  destruct (Gps.gps_target_reached _);
    [ intros E; injection E as <- <-; reflexivity | ].
  destruct (Pid.pid_compute _ _ _) as [c pid2].
  intros E. assert (E2 := f_equal snd E). cbn [snd] in E2. subst ev2.
  reflexivity.
Qed.

Lemma reports_app (a b : list event) :
  reports (a ++ b) = (reports a + reports b)%nat.
Proof. unfold reports. now rewrite filter_app, length_app. Qed.

(** One pass: the controller limits stay, the target stays set, the
    pass counter advances modulo 20, and a drive command obeys
    [navigate_drives]. *)
Lemma tick_invariants (s s' : loop_state) (i : tick_input)
    (evs : list event) :
  tick s i = Some (s', evs) ->
  (heading_limits s -> heading_limits s') /\
  (Gps.gps_has_target (gps s) = true ->
   Gps.gps_has_target (gps s') = true) /\
  ((0 <= loop_counter s < 20)%Z ->
   loop_counter s' = ((loop_counter s + 1) mod 20)%Z /\
   reports evs = Z.to_nat ((loop_counter s + 1) / 20)) /\
  forall da a db b,
    In (MotorsSetBoth da a db b) evs ->
    da = Motors.MOTOR_FORWARD /\ db = Motors.MOTOR_FORWARD /\
    (Config.MIN_SPEED <= a <= Config.MAX_SPEED)%Z /\
    (Config.MIN_SPEED <= b <= Config.MAX_SPEED)%Z /\
    (heading_limits s -> (130 <= a <= 230)%Z /\ (140 <= b <= 240)%Z) /\
    motors s' = Motors.Drive da a db b /\
    navigation_active s' = true /\
    Gps.fix_valid (Gps.current_gps_data (gps s')) = true /\
    Gps.gps_has_target (gps s') = true /\
    Gps.gps_target_reached (gps s') = false.
Proof.
  intros Ht.
  destruct (tick_stages _ _ _ _ Ht)
    as (s0 & heading & gps_data & s1 & ev1 & s2 & ev2 & ev3
        & Hread & Hcmd & Hnav & Hrep & ->).
  destruct (read_sensors_frame s i _ _ _ Hread)
    as (_ & Hp0 & _ & Htgt0 & Hdata).
  pose proof (read_sensors_counter s i _ _ _ Hread) as Hc0.
  destruct (process_command_keeps_limits s0 i _ _ Hcmd)
    as (Hl1 & Htgt1 & Hc1 & Hd1 & Hno1).
  destruct (navigate_drives s1 heading gps_data _ _ _ Hnav)
    as (Hl2 & Hg2 & Hc2 & Hdrive).
  destruct (report_frame _ _ _ _ _ Hrep) as (Hm3 & Hp3 & Hn3 & Hg3 & _).
  assert (Hl0 : heading_limits s -> heading_limits s0).
  { unfold heading_limits. now rewrite Hp0. }
  split; [ | split; [ | split ] ].
  - intros HL. specialize (Hl2 (Hl1 (Hl0 HL))).
    unfold heading_limits in *. now rewrite Hp3.
  - unfold Gps.gps_has_target in *. rewrite Hg3, Hg2.
    intros H. apply Htgt1. now rewrite Htgt0.
  - intros Hc.
    destruct (report_counter _ _ _ _ _ Hrep) as (Hc3 & Hr3);
      [ rewrite Hc2, Hc1, Hc0; exact Hc | ].
    rewrite Hc2, Hc1, Hc0 in Hc3, Hr3. split; [ exact Hc3 | ].
    rewrite !reports_app.
    rewrite (process_command_no_report _ _ _ _ Hcmd).
    rewrite (navigate_no_report _ _ _ _ _ _ Hnav). exact Hr3.
  - intros da a db b HIn.
    apply in_app_or in HIn. destruct HIn as [HIn | HIn];
      [ destruct (Hno1 _ _ _ _ HIn) | ].
    apply in_app_or in HIn. destruct HIn as [HIn | HIn].
    + destruct (Hdrive _ _ _ _ HIn)
        as (E1 & E2 & Ra & Rb & Rt & Hm & Hn & Hf & Htg & Hnr).
      split; [ exact E1 | ]. split; [ exact E2 | ].
      split; [ exact Ra | ]. split; [ exact Rb | ].
      split; [ intros HL; apply Rt; auto | ].
      rewrite Hm3, Hn3, Hg3. split; [ exact Hm | ]. split; [ exact Hn | ].
      split; [ | auto ].
      rewrite Hg2, Hd1, <- Hdata. exact Hf.
    + destruct (report_no_drive _ _ _ _ _ Hrep _ _ _ _ HIn).
Qed.

(** A pass without a Bluetooth line while navigation is inactive. *)
Lemma tick_idle (s : loop_state) (i : tick_input) :
  navigation_active s = false ->
  bt_buffer i = EmptyString ->
  exists s' evs,
    tick s i = Some (s', evs) /\
    existsb is_motor_event evs = false /\
    motors s' = motors s /\
    navigation_active s' = false /\
    heading_pid s' = heading_pid s.
Proof.
  intros Hn Hb. unfold tick.
  destruct (read_sensors s i) as [[s0 heading] gps_data] eqn:Hread.
  destruct (read_sensors_frame s i _ _ _ Hread) as (Hm0 & Hp0 & Hn0 & _).
  unfold process_command. rewrite Hb. cbn [String.length Z.of_nat Z.ltb].
  change (0 <? 0)%Z with false. cbv iota.
  rewrite navigate_guard by (left; congruence).
  destruct (report s0 heading gps_data) as [s3 ev3] eqn:Hrep.
  destruct (report_frame _ _ _ _ _ Hrep) as (Hm3 & Hp3 & Hn3 & _ & Hev).
  exists s3, ([] ++ [] ++ ev3).
  split; [ reflexivity | ]. split; [ exact Hev | ].
  split; [ congruence | ]. split; congruence.
Qed.

(** Far from the target, with a fix, the navigation step drives. *)
Lemma navigate_far (s : loop_state) (heading : R)
    (gps_data : Gps.gps_data_t) (now : Z) :
  navigation_active s = true ->
  Gps.fix_valid gps_data = true ->
  Gps.gps_has_target (gps s) = true ->
  2 <= Gps.gps_distance_to_target (gps s) ->
  exists s2 a b,
    navigate s heading gps_data now
    = (s2, [MotorsSetBoth Motors.MOTOR_FORWARD a Motors.MOTOR_FORWARD b]) /\
    loop_counter s2 = loop_counter s.
Proof.
  intros Hn Hf Ht Hd. unfold navigate. rewrite Hn, Hf, Ht. cbn [andb].
  unfold Gps.gps_target_reached.
  destruct (Rlt_dec _ 2) as [Hlt | _]; [ lra | ].
  destruct (Pid.pid_compute _ _ _) as [c pid2].
  eexists _, _, _. split; reflexivity.
Qed.

(** The loop under way, one degree of latitude south of its target,
    drives both motors in the pass in which the fix arrives. *)
Lemma cruising_pass_drives :
  exists s' a b,
    tick cruising (fix_received 9 20 100000)
    = Some (s', [MotorsSetBoth Motors.MOTOR_FORWARD a
                               Motors.MOTOR_FORWARD b]).
Proof.
  unfold tick.
  destruct (read_sensors _ _) as [[s0 heading] gps_data] eqn:Hread.
  assert (Hs0 : s0 = fst (fst (read_sensors cruising
                                 (fix_received 9 20 100000))))
    by now rewrite Hread.
  assert (Hg : gps_data = snd (read_sensors cruising
                                 (fix_received 9 20 100000)))
    by now rewrite Hread.
  assert (Hcmd : process_command s0 (fix_received 9 20 100000)
                 = Some (s0, [])) by reflexivity.
  rewrite Hcmd.
  assert (Hgps : gps s0 = Gps.fixed_at 9 20 10 20)
    by (rewrite Hs0; reflexivity).
  destruct (navigate_far s0 heading gps_data 100000)
    as (s2 & a & b & Hnav & Hc).
  - rewrite Hs0. reflexivity.
  - rewrite Hg. reflexivity.
  - rewrite Hgps. reflexivity.
  - rewrite Hgps, gps_distance_with_fix by reflexivity.
    cbn [Gps.fixed_at Gps.current_gps_data Gps.target_data Gps.latitude
         Gps.longitude Gps.target_latitude Gps.target_longitude].
    rewrite (haversine_of_half_angle 9 20 10 20 (PI / 360)).
    + pose proof PI_above_31 as Hpi.
      rewrite Rabs_right by lra. lra.
    + pose proof PI_RGT_0 as Hpi. lra.
    + unfold Gps.haversine_a.
      replace ((20 - 20) * PI / 180 / 2) with 0 by field.
      replace ((10 - 9) * PI / 180 / 2) with (PI / 360) by field.
      rewrite sin_0. ring.
  - change (clock_at_compute (fix_received 9 20 100000)) with 100000%Z.
    rewrite Hnav.
    assert (Hc0 : loop_counter s2 = 0%Z)
      by (rewrite Hc, Hs0; reflexivity).
    unfold report. rewrite Hc0. cbn [Z.add Z.geb Z.compare Pos.compare].
    change (0 + 1 >=? 20)%Z with false. cbv iota.
    eexists _, a, b. reflexivity.
Qed.

Lemma strchr_bound (s : list ascii) (c : ascii) (n : nat) :
  Bluetooth.strchr s c = Some n -> (n < List.length s)%nat.
Proof.
  revert n. induction s as [ | a s IH ]; intros n; simpl;
    [ discriminate | ].
  destruct (Ascii.eqb a c).
  - intros E. injection E as <-. lia.
  - destruct (Bluetooth.strchr s c) as [ m | ]; simpl; [ | discriminate ].
    intros E. injection E as <-. specialize (IH m eq_refl). lia.
Qed.

Lemma length_list_ascii_of_string (s : string) :
  List.length (list_ascii_of_string s) = String.length s.
Proof. induction s as [ | a s IH ]; simpl; congruence. Qed.

(** X21.  A pass drives the motors only from the navigation step, and
    only forward: whenever a pass emits [motors_set_both_motors], both
    directions are forward, both speeds lie between MIN_SPEED and
    MAX_SPEED, that command is the one in effect when the pass ends,
    and at the end of the pass navigation is active, the fix is valid,
    a target is set and [gps_target_reached] answers false. *)
Theorem tick_drives_only_when_navigating
    (s s' : loop_state) (i : tick_input) (evs : list event)
    (da db : Motors.motor_direction) (a b : Z) :
  tick s i = Some (s', evs) ->
  In (MotorsSetBoth da a db b) evs ->
  da = Motors.MOTOR_FORWARD /\ db = Motors.MOTOR_FORWARD /\
  (Config.MIN_SPEED <= a <= Config.MAX_SPEED)%Z /\
  (Config.MIN_SPEED <= b <= Config.MAX_SPEED)%Z /\
  motors s' = Motors.Drive da a db b /\
  navigation_active s' = true /\
  Gps.fix_valid (Gps.current_gps_data (gps s')) = true /\
  Gps.gps_has_target (gps s') = true /\
  Gps.gps_target_reached (gps s') = false.
Proof.
  intros Ht HIn.
  destruct (tick_invariants _ _ _ _ Ht) as (_ & _ & _ & Hdrive).
  destruct (Hdrive _ _ _ _ HIn)
    as (E1 & E2 & Ra & Rb & _ & Hm & Hn & Hf & Htg & Hnr).
  auto 10.
Qed.

(** The property of X21 in the pass in which the loop under way, one
    degree south of its target, receives its fix. *)
Lemma tick_drives_only_when_navigating_witness :
  exists s' a b,
    tick cruising (fix_received 9 20 100000)
    = Some (s', [MotorsSetBoth Motors.MOTOR_FORWARD a
                               Motors.MOTOR_FORWARD b]) /\
    (Config.MIN_SPEED <= a <= Config.MAX_SPEED)%Z /\
    motors s' = Motors.Drive Motors.MOTOR_FORWARD a Motors.MOTOR_FORWARD b /\
    navigation_active s' = true.
Proof.
  destruct cruising_pass_drives as (s' & a & b & Ht).
  exists s', a, b.
  destruct (tick_drives_only_when_navigating
              cruising s' (fix_received 9 20 100000) _
              Motors.MOTOR_FORWARD Motors.MOTOR_FORWARD a b Ht
              (or_introl eq_refl))
    as (_ & _ & Ra & _ & Hm & Hn & _).
  split; [ exact Ht | ]. split; [ exact Ra | ]. split; assumption.
Defined.

(** X22.  With the output limits -50 and 50 that [integration_test]
    gives the heading controller, every motor command of every pass of
    the loop has speed A between 130 and 230 and speed B between 140
    and 240: the correction shifts the base speeds 180 and 190 by at
    most 50, and the limitation to MIN_SPEED and MAX_SPEED never
    changes a speed.  The limits themselves survive every pass. *)
Theorem run_speeds_within_correction (inputs : list tick_input) :
  forall (s s' : loop_state) (evs : list event),
    heading_limits s ->
    run s inputs = Some (s', evs) ->
    heading_limits s' /\
    forall da a db b,
      In (MotorsSetBoth da a db b) evs ->
      (130 <= a <= 230)%Z /\ (140 <= b <= 240)%Z /\
      a = limit_speed a /\ b = limit_speed b.
Proof.
  induction inputs as [ | i rest IH ]; intros s s' evs HL; simpl.
  - intros E. injection E as <- <-. split; [ exact HL | ].
    intros da a db b [].
  - destruct (tick s i) as [ [s1 ev1] | ] eqn:Ht; [ | discriminate ].
    destruct (run s1 rest) as [ [s2 ev2] | ] eqn:Hr; [ | discriminate ].
    intros E.
    assert (E1 : s2 = s') by congruence.
    assert (E2 : ev1 ++ ev2 = evs) by congruence.
    subst s' evs. clear E.
    destruct (tick_invariants _ _ _ _ Ht) as (Hl & _ & _ & Hdrive).
    destruct (IH s1 s2 ev2 (Hl HL) Hr) as (HL2 & Hrest).
    split; [ exact HL2 | ].
    intros da a db b HIn. apply in_app_or in HIn.
    destruct HIn as [HIn | HIn]; [ | exact (Hrest _ _ _ _ HIn) ].
    destruct (Hdrive _ _ _ _ HIn) as (_ & _ & _ & _ & Hab & _).
    destruct (Hab HL) as (Ha & Hb).
    split; [ exact Ha | ]. split; [ exact Hb | ].
    unfold limit_speed, Config.MIN_SPEED, Config.MAX_SPEED.
    destruct (Z.ltb_spec a 30); [ lia | ].
    destruct (Z.gtb_spec a 255); [ lia | ].
    destruct (Z.ltb_spec b 30); [ lia | ].
    destruct (Z.gtb_spec b 255); [ lia | ].
    split; reflexivity.
Qed.

(** The property of X22 in the pass in which the loop under way
    receives its fix. *)
Lemma run_speeds_within_correction_witness :
  exists s' a b,
    run cruising [fix_received 9 20 100000]
    = Some (s', [MotorsSetBoth Motors.MOTOR_FORWARD a
                               Motors.MOTOR_FORWARD b]) /\
    (130 <= a <= 230)%Z /\ (140 <= b <= 240)%Z.
Proof.
  destruct cruising_pass_drives as (s' & a & b & Ht).
  exists s', a, b.
  assert (Hr : run cruising [fix_received 9 20 100000]
               = Some (s', [MotorsSetBoth Motors.MOTOR_FORWARD a
                                          Motors.MOTOR_FORWARD b])).
  { cbn [run]. rewrite Ht. reflexivity. }
  destruct (run_speeds_within_correction
              [fix_received 9 20 100000] cruising s' _
              (conj eq_refl eq_refl) Hr) as (_ & Hdrive).
  destruct (Hdrive _ _ _ _ (or_introl eq_refl)) as (Ha & Hb & _).
  split; [ exact Hr | ]. split; assumption.
Defined.

(** X23.  The pass counter counts modulo 20 and the report is sent,
    with the LED toggled, exactly when it wraps: after [n] passes from
    a counter [c] below 20 the counter is [(c + n) mod 20] and the
    passes have sent [(c + n) / 20] reports. *)
Theorem run_reports_every_twentieth_pass (inputs : list tick_input) :
  forall (s s' : loop_state) (evs : list event),
    (0 <= loop_counter s < 20)%Z ->
    run s inputs = Some (s', evs) ->
    loop_counter s'
    = ((loop_counter s + Z.of_nat (List.length inputs)) mod 20)%Z /\
    reports evs
    = Z.to_nat ((loop_counter s + Z.of_nat (List.length inputs)) / 20).
Proof.
  induction inputs as [ | i rest IH ]; intros s s' evs Hc.
  - simpl. intros E. injection E as <- <-.
    rewrite Z.add_0_r, Z.mod_small, Z.div_small by lia.
    split; reflexivity.
  - cbn [run].
    destruct (tick s i) as [ [s1 ev1] | ] eqn:Ht; [ | discriminate ].
    destruct (run s1 rest) as [ [s2 ev2] | ] eqn:Hr; [ | discriminate ].
    intros E.
    assert (E1 : s2 = s') by congruence.
    assert (E2 : ev1 ++ ev2 = evs) by congruence.
    subst s' evs. clear E.
    destruct (tick_invariants _ _ _ _ Ht) as (_ & _ & Hcount & _).
    destruct (Hcount Hc) as (Hc1 & Hr1).
    assert (Hc1range : (0 <= loop_counter s1 < 20)%Z)
      by (rewrite Hc1; apply Z.mod_pos_bound; lia).
    destruct (IH s1 s2 ev2 Hc1range Hr) as (Hc2 & Hr2).
    rewrite reports_app, Hr1, Hr2, Hc2, Hc1.
    set (n := Z.of_nat (List.length rest)).
    assert (Hn : (0 <= n)%Z) by (unfold n; lia).
    replace (Z.of_nat (List.length (i :: rest))) with (n + 1)%Z
      by (unfold n; cbn [List.length]; lia).
    set (c := loop_counter s) in *.
    destruct (Z.eq_dec c 19) as [E19 | N19].
    + rewrite E19. change ((19 + 1) mod 20)%Z with 0%Z.
      change ((19 + 1) / 20)%Z with 1%Z.
      replace (19 + (n + 1))%Z with (n + 1 * 20)%Z by lia.
      rewrite Z.mod_add, Z.div_add by lia.
      rewrite Z.add_0_l. split; [ reflexivity | ].
      rewrite <- Z2Nat.inj_add by (try lia; apply Z.div_pos; lia).
      f_equal. lia.
    + rewrite (Z.mod_small (c + 1)), (Z.div_small (c + 1)) by lia.
      replace (c + (n + 1))%Z with (c + 1 + n)%Z by lia.
      split; reflexivity.
Qed.

(** The property of X23 for the first pass of the loop. *)
Lemma run_reports_every_twentieth_pass_witness :
  exists s' evs,
    run (startup 0 0 0) [line_only "10,20" 1000] = Some (s', evs) /\
    loop_counter s' = 1%Z /\ reports evs = 0%nat.
Proof.
  destruct tick_sets_target as (s1 & ev1 & Ht & _).
  assert (Hr : run (startup 0 0 0) [line_only "10,20" 1000]
               = Some (s1, ev1 ++ [])).
  { cbn [run]. rewrite Ht. reflexivity. }
  exists s1, (ev1 ++ []). split; [ exact Hr | ].
  apply (run_reports_every_twentieth_pass
           [line_only "10,20" 1000] (startup 0 0 0) s1 (ev1 ++ [])).
  - simpl. lia.
  - exact Hr.
Defined.

(** X24.  Nothing in the loop clears the target: once [gps_has_target]
    answers true it does so after any number of passes, whatever the
    commands received, STOP and arrival included. *)
Theorem run_keeps_target (inputs : list tick_input) :
  forall (s s' : loop_state) (evs : list event),
    Gps.gps_has_target (gps s) = true ->
    run s inputs = Some (s', evs) ->
    Gps.gps_has_target (gps s') = true.
Proof.
  induction inputs as [ | i rest IH ]; intros s s' evs Hs; cbn [run].
  - intros E. injection E as <- <-. exact Hs.
  - destruct (tick s i) as [ [s1 ev1] | ] eqn:Ht; [ | discriminate ].
    destruct (run s1 rest) as [ [s2 ev2] | ] eqn:Hr; [ | discriminate ].
    intros E. assert (E1 : s2 = s') by congruence. subst s'.
    destruct (tick_invariants _ _ _ _ Ht) as (_ & Htg & _).
    exact (IH s1 s2 ev2 (Htg Hs) Hr).
Qed.

(** The property of X24 for the loop under way in the pass in which
    its fix arrives. *)
Lemma run_keeps_target_witness :
  exists s' evs,
    run cruising [fix_received 9 20 100000] = Some (s', evs) /\
    Gps.gps_has_target (gps s') = true.
Proof.
  destruct cruising_pass_drives as (s' & a & b & Ht).
  assert (Hr : run cruising [fix_received 9 20 100000]
               = Some (s', [MotorsSetBoth Motors.MOTOR_FORWARD a
                                          Motors.MOTOR_FORWARD b] ++ [])).
  { cbn [run]. rewrite Ht. reflexivity. }
  exists s', ([MotorsSetBoth Motors.MOTOR_FORWARD a
                             Motors.MOTOR_FORWARD b] ++ []).
  split; [ exact Hr | ].
  exact (run_keeps_target [fix_received 9 20 100000] cruising s' _
           eq_refl Hr).
Defined.

(** X25.  While navigation is inactive and no Bluetooth line arrives,
    the loop leaves the motors alone: every such pass completes, none
    emits a motor command, and the command in effect, the navigation
    flag and the heading controller are unchanged, whatever the
    compass and the GPS deliver. *)
Theorem run_idle_without_commands (inputs : list tick_input) :
  forall s : loop_state,
    navigation_active s = false ->
    Forall (fun i => bt_buffer i = EmptyString) inputs ->
    exists s' evs,
      run s inputs = Some (s', evs) /\
      existsb is_motor_event evs = false /\
      motors s' = motors s /\
      navigation_active s' = false /\
      heading_pid s' = heading_pid s.
Proof.
  induction inputs as [ | i rest IH ]; intros s Hn Hall; cbn [run].
  - exists s, []. auto.
  - inversion Hall as [ | i' rest' Hi Hrest ]; subst.
    destruct (tick_idle s i Hn Hi) as (s1 & ev1 & Ht & He1 & Hm1 & Hn1 & Hp1).
    destruct (IH s1 Hn1 Hrest) as (s2 & ev2 & Hr & He2 & Hm2 & Hn2 & Hp2).
    rewrite Ht, Hr. exists s2, (ev1 ++ ev2).
    split; [ reflexivity | ].
    split; [ rewrite existsb_app, He1, He2; reflexivity | ].
    split; [ congruence | ]. split; congruence.
Qed.

(** The property of X25 on entry of the loop, over two passes in which
    the receiver reports no fix. *)
Lemma run_idle_without_commands_witness :
  exists s' evs,
    run (startup 0 0 0) [fix_lost 50000; fix_lost 100000] = Some (s', evs) /\
    existsb is_motor_event evs = false /\
    motors s' = Motors.AllStopped.
Proof.
  destruct (run_idle_without_commands
              [fix_lost 50000; fix_lost 100000] (startup 0 0 0) eq_refl)
    as (s' & evs & Hr & He & Hm & _).
  - repeat constructor.
  - exists s', evs. split; [ exact Hr | ]. split; [ exact He | exact Hm ].
Defined.

(** X26.  A pass is defined, [strcpy] staying within [lng_str], for
    every line of at most 32 characters; a line of 34 characters, which
    the 128 bytes of [bt_buffer] hold, is enough to overrun it. *)
Theorem tick_overrun_needs_long_line (s : loop_state) :
  (forall i : tick_input,
     (String.length (bt_buffer i) <= 32)%nat ->
     exists s' evs, tick s i = Some (s', evs)) /\
  String.length long_line = 34%nat /\
  forall now, tick s (line_only long_line now) = None.
Proof.
  split; [ | split; [ reflexivity | ] ].
  - intros i Hlen. unfold tick.
    destruct (read_sensors s i) as [[s0 heading] gps_data].
    assert (Hcmd : exists s1 ev1, process_command s0 i = Some (s1, ev1)).
    { unfold process_command.
      destruct (0 <? _)%Z; [ | eauto ].
      destruct (String.eqb _ _); [ eauto | ].
      assert (Hno : Bluetooth.bluetooth_parse_coordinates (bt_buffer i)
                    <> Bluetooth.Overrun).
      { unfold Bluetooth.bluetooth_parse_coordinates.
        destruct (Bluetooth.strchr _ _) as [ n | ] eqn:Hs;
          [ | discriminate ].
        apply strchr_bound in Hs.
        rewrite length_list_ascii_of_string in Hs.
        destruct (Bluetooth.sizeof_str <=? n)%nat; [ discriminate | ].
        destruct (Nat.leb_spec Bluetooth.sizeof_str
                    (List.length
                       (skipn (S n) (list_ascii_of_string (bt_buffer i)))))
          as [Hle | Hgt]; [ | discriminate ].
        rewrite length_skipn, length_list_ascii_of_string in Hle.
        unfold Bluetooth.sizeof_str in Hle. lia. }
      destruct (Bluetooth.bluetooth_parse_coordinates (bt_buffer i))
        as [ | | [ lat | | ] [ lng | | ] [ | ] ];
        try contradiction; eauto. }
    destruct Hcmd as (s1 & ev1 & ->).
    destruct (navigate _ _ _ _) as [s2 ev2].
    destruct (report _ _ _) as [s3 ev3]. eauto.
  - intros now. unfold tick.
    destruct (read_sensors s _) as [[s0 heading] gps_data].
    assert (Hcmd : process_command s0 (line_only long_line now) = None)
      by reflexivity.
    now rewrite Hcmd.
Qed.

(** The property of X26 on entry of the loop for the line "10,20". *)
Lemma tick_overrun_needs_long_line_witness :
  exists s' evs,
    tick (startup 0 0 0) (line_only "10,20" 1000) = Some (s', evs).
Proof.
  apply (proj1 (tick_overrun_needs_long_line (startup 0 0 0))
           (line_only "10,20" 1000)).
  simpl. lia.
Defined.

End LoopMotors.

(** ** The heading estimator over successive samples *)

Section HeadingEstimator.

Import Magnetometer.

Lemma headings_not_initialized (samples : list (option (Z * Z * Z))) :
  forall m : mag_module,
    initialized m = false ->
    headings m samples
    = repeat (filtered_heading m) (List.length samples).
Proof.
  induction samples as [ | s rest IH ]; intros m Hi; [ reflexivity | ].
  cbn [headings List.length repeat].
  unfold magnetometer_get_filtered_heading, magnetometer_read_raw.
  rewrite Hi. cbn [negb]. f_equal. exact (IH m Hi).
Qed.

(** One step of the filter from a stored heading between 0 and 360,
    both ends included, on a sample within one and a half turns of
    zero. *)
Lemma low_pass_closed_range (filtered new_heading : R) :
  0 <= filtered <= 360 ->
  -540 <= new_heading <= 540 ->
  0 <= low_pass filtered new_heading <= 360.
Proof.
  intros Hf Hn. unfold low_pass, ALPHA. branch_R.
Qed.

Lemma get_filtered_heading_closed_range (m : mag_module)
    (bus : option (Z * Z * Z)) :
  0 <= filtered_heading m <= 360 ->
  -1 <= declination_angle m <= 1 ->
  0 <= fst (magnetometer_get_filtered_heading m bus) <= 360 /\
  filtered_heading (snd (magnetometer_get_filtered_heading m bus))
  = fst (magnetometer_get_filtered_heading m bus) /\
  declination_angle (snd (magnetometer_get_filtered_heading m bus))
  = declination_angle m.
Proof.
  intros Hf Hd. unfold magnetometer_get_filtered_heading.
  destruct (magnetometer_read_raw m bus) as [ [ [x y] z ] | ];
    cbn [fst snd filtered_heading declination_angle].
  - split; [ | auto ].
    apply low_pass_closed_range; [ exact Hf | ].
    exact (magnetometer_calculate_heading_range m x y Hd).
  - auto.
Qed.

(** X27.  The estimator keeps its heading between 0 and 360, both ends
    included, over any sequence of samples and failed reads, provided
    the stored heading starts there and the declination is at most one
    radian either way (the unnormalised sample then stays within reach
    of the single correction of the filter); and a module that was
    never initialised answers its stored heading every time. *)
Theorem headings_stay_in_range (samples : list (option (Z * Z * Z)))
    (m : mag_module) :
  (0 <= filtered_heading m <= 360 ->
   -1 <= declination_angle m <= 1 ->
   Forall (fun h => 0 <= h <= 360) (headings m samples)) /\
  (initialized m = false ->
   headings m samples = repeat (filtered_heading m) (List.length samples)).
Proof.
  split; [ | apply headings_not_initialized ].
  revert m. induction samples as [ | s rest IH ]; intros m Hf Hd;
    cbn [headings]; [ constructor | ].
  pose proof (get_filtered_heading_closed_range m s Hf Hd) as H.
  destruct (magnetometer_get_filtered_heading m s) as [h m'].
  cbn [fst snd] in H. destruct H as (Hh & Hm & Hd').
  constructor; [ exact Hh | ].
  apply IH; [ rewrite Hm; exact Hh | rewrite Hd'; exact Hd ].
Qed.

(** The property of X27 for the module after [magnetometer_init], over
    a sample pointing along the x axis followed by a failed read. *)
Lemma headings_stay_in_range_witness :
  Forall (fun h => 0 <= h <= 360)
    (headings ready [Some (1, 0, 0)%Z; None]).
Proof.
  apply (proj1 (headings_stay_in_range [Some (1, 0, 0)%Z; None] ready)).
  - simpl. lra.
  - simpl. lra.
Defined.

End HeadingEstimator.
